(** * Advanced Layer 7 Stress Test Tool: the request-dispatch engine

    A shallow embedding of [stress-test.js]: the circuit breaker, the
    protocol probe, the failover dispatcher, the attack driver, the parsing
    of the protocol override and the workload selection of [main].

    Conventions of the embedding.
    - JavaScript numbers that count things are integers ([Z]).
    - Time is one nanosecond clock kept in the environment; [Date.now()]
      reads it in milliseconds, [process.hrtime.bigint()] in nanoseconds.
      The clock moves only when the environment (network, timers) moves it.
    - An [async] function is a function from the environment to a settled
      outcome ([Ok] for a fulfilled promise, [Throw] for a rejected one)
      and the environment it leaves behind.  One call runs to completion
      before the next one starts; concurrent tasks are interleaved one
      loop turn at a time.
    - The target is a parameter ([Variable]) of the development: every
      statement holds for every behaviour of the network.  The random
      choices of method, user agent and TLS profile do not steer the
      control flow and are part of what the network stands for.
    - [client.close()] and [client.destroy()] are taken to succeed.
    - An object read with a key that comes from the command line
      ([protocolMap]) is modelled with the members it inherits from
      [Object.prototype].  The histograms of [stats] are keyed by status
      codes, protocol names and error signatures produced by the run; they
      are modelled as finite maps of their own properties. *)

From Stdlib Require Import ZArith Lia String Ascii List.
From stdpp Require Import base relations gmap strings list sorting pretty.

Open Scope string_scope.
Open Scope Z_scope.

(** ** JavaScript values, errors and settled promises *)

Module Js.

(** The values that flow through the modelled code: [undefined], numbers,
    strings, and the members every object literal inherits from
    [Object.prototype] (each one identified by its property name). *)
Inductive Val : Type :=
  | VUndefined
  | VNum (n : Z)
  | VStr (s : string)
  | VBuiltin (name : string).

#[global] Instance Val_eq_dec : EqDecision Val.
Proof. solve_decision. Defined.

(** [Boolean(v)], also the test made by [||] and by [filter(Boolean)]. *)
Definition truthy (v : Val) : bool :=
  match v with
  | VUndefined => false
  | VNum n => negb (n =? 0)
  | VStr s => negb (String.eqb s "")
  | VBuiltin _ => true
  end.

(** [a || b] *)
Definition or_else (a b : Val) : Val := if truthy a then a else b.

(** [String(v)], the conversion applied to a property key. *)
Definition to_key (v : Val) : string :=
  match v with
  | VUndefined => "undefined"
  | VNum n => pretty n
  | VStr s => s
  | VBuiltin name =>
      if String.eqb name "__proto__" then "[object Object]"
      else String.append "function "
             (String.append
                (if String.eqb name "constructor" then "Object" else name)
                "() { [native code] }")
  end.

(** The property names found on [Object.prototype]. *)
Definition Object_prototype : list string :=
  [ "constructor"; "__defineGetter__"; "__defineSetter__"; "hasOwnProperty";
    "__lookupGetter__"; "__lookupSetter__"; "isPrototypeOf";
    "propertyIsEnumerable"; "toString"; "valueOf"; "__proto__";
    "toLocaleString" ].

(** [obj[k]] for an object literal with the given own properties: an own
    property first, then the prototype chain, else [undefined]. *)
Definition get (own : list (string * Val)) (k : string) : Val :=
  match list_find (fun kv => kv.1 = k) own with
  | Some (_, (_, v)) => v
  | None => if decide (k ∈ Object_prototype) then VBuiltin k else VUndefined
  end.

(** An [Error]: its optional [code] and its [message]. *)
Record Error : Type := mkError { code : Val; message : option string }.

#[global] Instance Error_eq_dec : EqDecision Error.
Proof. solve_decision. Defined.

(** A settled promise, or the completion of a [try] block. *)
Inductive Outcome (A : Type) : Type :=
  | Ok (a : A)
  | Throw (err : Error).
Arguments Ok {A} a.
Arguments Throw {A} err.

Definition is_Throw {A} (o : Outcome A) : Prop :=
  match o with Throw _ => True | Ok _ => False end.

Definition is_Ok {A} (o : Outcome A) : Prop :=
  match o with Ok _ => True | Throw _ => False end.

End Js.
Import Js.

(** ** class CircuitBreaker (lines 54-111) *)

Module CircuitBreaker.

Inductive State : Type := CLOSED | OPEN | HALF_OPEN.

#[global] Instance State_eq_dec : EqDecision State.
Proof. solve_decision. Defined.

Record t : Type := mk {
  failCount : Z;
  successCount : Z;
  threshold : Z;
  timeout : Z;
  halfOpenRequests : Z;
  state : State;
  nextAttempt : Z
}.

(** constructor(threshold = 10, timeout = 5000, halfOpenRequests = 3) *)
Definition new (threshold timeout halfOpenRequests : Z) : t :=
  {| failCount := 0; successCount := 0;
     threshold := threshold; timeout := timeout;
     halfOpenRequests := halfOpenRequests;
     state := CLOSED; nextAttempt := 0 |}.

Definition with_defaults : t := new 10 5000 3.

Definition set_failCount (n : Z) (b : t) : t :=
  mk n (successCount b) (threshold b) (timeout b) (halfOpenRequests b)
     (state b) (nextAttempt b).

Definition set_successCount (n : Z) (b : t) : t :=
  mk (failCount b) n (threshold b) (timeout b) (halfOpenRequests b)
     (state b) (nextAttempt b).

Definition set_state (s : State) (b : t) : t :=
  mk (failCount b) (successCount b) (threshold b) (timeout b)
     (halfOpenRequests b) s (nextAttempt b).

Definition set_nextAttempt (n : Z) (b : t) : t :=
  mk (failCount b) (successCount b) (threshold b) (timeout b)
     (halfOpenRequests b) (state b) n.

(** reset() (lines 102-106) *)
Definition reset (b : t) : t :=
  set_state CLOSED (set_successCount 0 (set_failCount 0 b)).

(** getState() *)
Definition getState (b : t) : State := state b.

(** The error thrown at line 68. *)
Definition circuit_open_error : Error :=
  {| code := VUndefined;
     message := Some "Circuit OPEN - Waiting for reconnect" |}.

(** Lines 66-72, the part of [execute] that runs before [fn] is called:
    [None] is the throw of line 68, [Some b'] lets the call through. *)
Definition gate (now : Z) (b : t) : option t :=
  if decide (state b = OPEN) then
    if now <? nextAttempt b then None
    else Some (set_successCount 0 (set_state HALF_OPEN b))
  else Some b.

(** Lines 77-84, after [fn] has fulfilled. *)
Definition on_success (b : t) : t :=
  if decide (state b = HALF_OPEN) then
    let b1 := set_successCount (successCount b + 1) b in
    if successCount b1 >=? halfOpenRequests b1 then reset b1 else b1
  else set_failCount (Z.max 0 (failCount b - 1)) b.

(** Lines 88-96, after [fn] has rejected; [now] is the clock at that
    moment. *)
Definition on_failure (now : Z) (b : t) : t :=
  let b1 := set_failCount (failCount b + 1) b in
  if decide (state b1 = HALF_OPEN) then
    set_nextAttempt (now + timeout b1) (set_state OPEN b1)
  else if failCount b1 >=? threshold b1 then
    set_nextAttempt (now + timeout b1) (set_state OPEN b1)
  else b1.

Section Execute.
(** The environment the wrapped operation lives in, and its clock. *)
Context {Env R : Type} (Date_now : Env -> Z).

(** An operation awaited by the breaker. *)
Definition Op : Type := Env -> Outcome R * Env.

(** async execute(fn) (lines 65-100) *)
Definition execute (fn : Op) (b : t) (e : Env) : Outcome R * t * Env :=
  match gate (Date_now e) b with
  | None => (Throw circuit_open_error, b, e)
  | Some b1 =>
      match fn e with
      | (Ok result, e1) => (Ok result, on_success b1, e1)
      | (Throw err, e1) => (Throw err, on_failure (Date_now e1) b1, e1)
      end
  end.

(** A caller's successive calls.  Between two calls the rest of the
    program and the passing of time act on the environment
    ([ambient]). *)
Record Call : Type := mkCall { ambient : Env -> Env; op : Op }.

Fixpoint run_calls (cs : list Call) (b : t) (e : Env)
  : list (Outcome R) * t * Env :=
  match cs with
  | [] => ([], b, e)
  | c :: cs' =>
      let '(r, b1, e1) := execute (op c) b (ambient c e) in
      let '(rs, b2, e2) := run_calls cs' b1 e1 in
      (r :: rs, b2, e2)
  end.

(** Each call of the list, at the moment it is made, has its operation
    reject: the calls are failed calls in a row. *)
Fixpoint each_fails (cs : list Call) (e : Env) : Prop :=
  match cs with
  | [] => True
  | c :: cs' =>
      is_Throw (op c (ambient c e)).1 /\
      each_fails cs' (op c (ambient c e)).2
  end.

(** Each call of the list, at the moment it is made, has its operation
    fulfil: the calls are successful calls in a row. *)
Fixpoint each_succeeds (cs : list Call) (e : Env) : Prop :=
  match cs with
  | [] => True
  | c :: cs' =>
      is_Ok (op c (ambient c e)).1 /\
      each_succeeds cs' (op c (ambient c e)).2
  end.

(** Every call of the list is made while the clock reads less than
    [deadline], as long as no operation touches the environment. *)
Fixpoint made_before (deadline : Z) (cs : list Call) (e : Env) : Prop :=
  match cs with
  | [] => True
  | c :: cs' =>
      Date_now (ambient c e) < deadline /\
      made_before deadline cs' (ambient c e)
  end.

(** The environment after the calls when no operation ran. *)
Definition ambient_only (cs : list Call) (e : Env) : Env :=
  fold_left (fun e c => ambient c e) cs e.

(** The environment after the calls when every operation ran. *)
Definition all_started (cs : list Call) (e : Env) : Env :=
  fold_left (fun e c => (op c (ambient c e)).2) cs e.
End Execute.

(** The states an instance can be in: built by the constructor and then
    changed by [execute] alone. *)
Inductive reachable : t -> Prop :=
  | reach_new th to h : reachable (new th to h)
  | reach_gate now b b' : reachable b -> gate now b = Some b' -> reachable b'
  | reach_success b : reachable b -> reachable (on_success b)
  | reach_failure now b : reachable b -> reachable (on_failure now b).

End CircuitBreaker.

(** ** Strings: [split(',')], [trim()], [includes()] *)

Module Str.

(** [s.split(sep)] for a one-character separator: never the empty list. *)
Fixpoint split (sep : ascii) (s : string) : list string :=
  match s with
  | EmptyString => [EmptyString]
  | String c s' =>
      if Ascii.eqb c sep then EmptyString :: split sep s'
      else match split sep s' with
           | tok :: toks => String c tok :: toks
           | [] => [String c EmptyString]
           end
  end.

(** White space as [trim()] sees it, among the characters below 256: TAB,
    LF, VT, FF, CR, SPACE and NBSP. *)
Definition is_whitespace (c : ascii) : bool :=
  let n := nat_of_ascii c in
  (Nat.leb 9 n && Nat.leb n 13) || Nat.eqb n 32 || Nat.eqb n 160.

Fixpoint trimStart (s : string) : string :=
  match s with
  | EmptyString => EmptyString
  | String c s' => if is_whitespace c then trimStart s' else s
  end.

Fixpoint trimEnd (s : string) : string :=
  match s with
  | EmptyString => EmptyString
  | String c s' =>
      match trimEnd s' with
      | EmptyString => if is_whitespace c then EmptyString
                       else String c EmptyString
      | t => String c t
      end
  end.

Definition trim (s : string) : string := trimEnd (trimStart s).

(** [hay.includes(needle)] on strings. *)
Fixpoint includes (needle hay : string) : bool :=
  String.prefix needle hay ||
  match hay with
  | EmptyString => false
  | String _ hay' => includes needle hay'
  end.

End Str.

(** ** The run: statistics, environment, network *)

Module Engine.

Import CircuitBreaker.

(** [stats.minLatency] starts at [Infinity]. *)
Inductive Latency : Type := Finite (ns : Z) | Infinity.

(** [a < b] with [a] a measured latency. *)
Definition lt_latency (a : Z) (b : Latency) : bool :=
  match b with Finite b' => a <? b' | Infinity => true end.

(** The [stats] object of [main] (lines 480-493).  Latencies are kept in
    nanoseconds, the unit of the clock difference [end - start]; the
    source divides it by 1e6, a rescaling that leaves the comparisons of
    lines 208-209 as they are.  The histograms are objects used as maps. *)
Record Stats : Type := mkStats {
  success : Z;
  failed : Z;
  totalLatency : Z;
  minLatency : Latency;
  maxLatency : Z;
  statusCodes : gmap Z Z;
  protocols : gmap string Z;
  errors : gmap string Z;
  attackSent : Z;
  attackReceived : Z;
  attackErrors : Z;
  attackStatus : gmap Z Z
}.

Definition initial_stats : Stats :=
  {| success := 0; failed := 0; totalLatency := 0;
     minLatency := Infinity; maxLatency := 0;
     statusCodes := ∅; protocols := ∅; errors := ∅;
     attackSent := 0; attackReceived := 0; attackErrors := 0;
     attackStatus := ∅ |}.

(** [h[k] = (h[k] || 0) + 1] *)
Definition bump `{Countable K} (k : K) (h : gmap K Z) : gmap K Z :=
  <[k := default 0 (h !! k) + 1]> h.

(** Lines 203-209. *)
Definition record_success (statusCode latency : Z) (proto : Val)
    (s : Stats) : Stats :=
  {| success := success s + 1;
     failed := failed s;
     totalLatency := totalLatency s + latency;
     minLatency := if lt_latency latency (minLatency s)
                   then Finite latency else minLatency s;
     maxLatency := if latency >? maxLatency s
                   then latency else maxLatency s;
     statusCodes := bump statusCode (statusCodes s);
     protocols := bump (to_key proto) (protocols s);
     errors := errors s;
     attackSent := attackSent s;
     attackReceived := attackReceived s;
     attackErrors := attackErrors s;
     attackStatus := attackStatus s |}.

(** [err.code || err.message?.substring(0, 20) || "UNKNOWN"] as a property
    key (lines 216-217). *)
Definition error_key (err : Error) : string :=
  to_key
    (or_else
       (or_else (code err)
          (match message err with
           | Some m => VStr (String.substring 0 20 m)
           | None => VUndefined
           end))
       (VStr "UNKNOWN")).

(** Lines 215-217. *)
Definition record_failure (err : Error) (s : Stats) : Stats :=
  {| success := success s;
     failed := failed s + 1;
     totalLatency := totalLatency s;
     minLatency := minLatency s;
     maxLatency := maxLatency s;
     statusCodes := statusCodes s;
     protocols := protocols s;
     errors := bump (error_key err) (errors s);
     attackSent := attackSent s;
     attackReceived := attackReceived s;
     attackErrors := attackErrors s;
     attackStatus := attackStatus s |}.

(** The events of the attack driver on the counters (lines 250-258, 270). *)
Inductive StreamEvent : Type :=
  | Response (status : Z)
  | StreamError.

Definition attack_sent (s : Stats) : Stats :=
  mkStats (success s) (failed s) (totalLatency s) (minLatency s)
    (maxLatency s) (statusCodes s) (protocols s) (errors s)
    (attackSent s + 1) (attackReceived s) (attackErrors s) (attackStatus s).

Definition attack_error (s : Stats) : Stats :=
  mkStats (success s) (failed s) (totalLatency s) (minLatency s)
    (maxLatency s) (statusCodes s) (protocols s) (errors s)
    (attackSent s) (attackReceived s) (attackErrors s + 1) (attackStatus s).

Definition attack_response (status : Z) (s : Stats) : Stats :=
  mkStats (success s) (failed s) (totalLatency s) (minLatency s)
    (maxLatency s) (statusCodes s) (protocols s) (errors s)
    (attackSent s) (attackReceived s + 1) (attackErrors s)
    (bump status (attackStatus s)).

Definition stream_event (ev : StreamEvent) (s : Stats) : Stats :=
  match ev with
  | Response status => attack_response status s
  | StreamError => attack_error s
  end.

(** What the process holds open: undici clients (with their [pipelining]
    option, when given) and HTTP/2 sessions. *)
Inductive Handle : Type :=
  | UndiciClient (pipelining : option Z)
  | Http2Session.

(** What goes out on the wire. *)
Inductive Request : Type :=
  | Head (client : nat)                             (* line 145 *)
  | Fetch (client : nat) (proto : Val) (path : string)   (* line 185 *)
  | Connect (session : nat)                         (* line 231 *)
  | Stream (session : nat).                         (* line 243 *)

(** The environment of the run. *)
Record Env : Type := mkEnv {
  clock : Z;                  (* nanoseconds *)
  stats : Stats;
  live : gmap nat Handle;     (* created and neither closed nor destroyed *)
  created : nat;              (* handles created so far *)
  wire : list Request         (* most recent first *)
}.

Definition initial_env (clock : Z) : Env :=
  {| clock := clock; stats := initial_stats; live := ∅; created := 0;
     wire := [] |}.

Definition with_stats (f : Stats -> Stats) (e : Env) : Env :=
  mkEnv (clock e) (f (stats e)) (live e) (created e) (wire e).

Definition advance (ns : Z) (e : Env) : Env :=
  mkEnv (clock e + ns) (stats e) (live e) (created e) (wire e).

Definition sleep (ms : Z) (e : Env) : Env := advance (ms * 1000000) e.

Definition send (r : Request) (e : Env) : Env :=
  mkEnv (clock e) (stats e) (live e) (created e) (r :: wire e).

Definition open_handle (h : Handle) (e : Env) : nat * Env :=
  (created e,
   mkEnv (clock e) (stats e) (<[created e := h]> (live e))
     (S (created e)) (wire e)).

(** [client.close()] and [client.destroy()] *)
Definition release (c : nat) (e : Env) : Env :=
  mkEnv (clock e) (stats e) (delete c (live e)) (created e) (wire e).

(** [Date.now()] *)
Definition Date_now (e : Env) : Z := clock e / 1000000.

(** [headers['alt-svc']]: absent, one value, or several. *)
Inductive HeaderVal : Type :=
  | HAbsent
  | HSingle (v : string)
  | HMulti (vs : list string).

(** [headers['alt-svc']?.includes('h3')]: a substring test on a string,
    a membership test on an array. *)
Definition advertises_h3 (h : HeaderVal) : bool :=
  match h with
  | HAbsent => false
  | HSingle v => Str.includes "h3" v
  | HMulti vs => bool_decide ("h3" ∈ vs)
  end.

(** The response advertises HTTP/3, as the specification words the probe
    (an HTTP/3 advertisement in the response metadata): the alt-svc
    header is present and one of its values names h3. *)
Definition alt_svc_names_h3 (h : HeaderVal) : bool :=
  match h with
  | HAbsent => false
  | HSingle v => Str.includes "h3" v
  | HMulti vs => existsb (Str.includes "h3") vs
  end.

(** How the target answers an undici request. *)
Inductive Answer : Type :=
  | Rejected (err : Error)
      (* the request promise rejects: refused, reset, TLS failure,
         abort by the timeout signal *)
  | Responded (statusCode : Z) (alt_svc : HeaderVal)
      (drain_ns : Z) (body_error : option Error).
      (* headers arrive; the body then drains, or fails while read *)

Record Reply : Type := mkReply { elapsed : Z; answer : Answer }.

(** How the target answers one round of the attack driver. *)
Inductive ConnectResult : Type :=
  | ConnectThrows      (* http2.connect throws *)
  | ConnectFails       (* 'error' before 'connect', or the 5 s timer *)
  | Connected (accepted : nat) (events : list StreamEvent).
      (* [accepted] calls of client.request return a stream, the next one
         throws; [events] fire on the streams before the round ends *)

Record H2Reply : Type := mkH2Reply { connect_ns : Z; connect : ConnectResult }.

(** The settled result of an [async] function over the environment. *)
Definition M (A : Type) : Type := Env -> Outcome A * Env.

Definition ret {A} (a : A) : M A := fun e => (Ok a, e).

Definition throw {A} (err : Error) : M A := fun e => (Throw err, e).

Definition bind {A B} (m : M A) (k : A -> M B) : M B :=
  fun e =>
    match m e with
    | (Ok a, e1) => k a e1
    | (Throw err, e1) => (Throw err, e1)
    end.

Definition effect (f : Env -> Env) : M unit := fun e => (Ok tt, f e).

Declare Scope async_scope.
Delimit Scope async_scope with async.
Notation "'let_await' x ':=' m 'in' k" := (bind m (fun x => k))
  (at level 10, x name, m at level 200, k at level 200) : async_scope.
Notation "'await' m ';;' k" := (bind m (fun _ => k))
  (at level 10, m at level 99, k at level 200) : async_scope.

Local Open Scope async_scope.

(** The response of [client.request]: [{ statusCode, headers, body }]. *)
Record ResponseData : Type := mkResponse {
  statusCode : Z;
  alt_svc : HeaderVal;
  body : Z * option Error
}.

(** What the closure of [sendRequest] returns (line 211). *)
Record Result : Type := mkResult {
  res_statusCode : Z;
  res_latency : Z;
  res_proto : Val
}.

(** [protocols.add(v)] on a [Set], which keeps insertion order. *)
Definition Set_add (v : Val) (s : list Val) : list Val :=
  if decide (v ∈ s) then s else s ++ [v].

(** The configuration built by [parseArgs] (lines 363-370); [null] and a
    missing argument are both [VUndefined]. *)
Record Config : Type := mkConfig {
  time : Z;
  conc : nat;
  attack : Val;
  protocol : Val;
  adaptiveDelay : bool
}.

Definition with_attack (mode : Val) (c : Config) : Config :=
  mkConfig (time c) (conc c) mode (protocol c) (adaptiveDelay c).

(** [a <= b] on latency bounds. *)
Definition latency_le (a b : Latency) : Prop :=
  match a, b with
  | Finite a', Finite b' => a' <= b'
  | _, Infinity => True
  | Infinity, Finite _ => False
  end.

(** The counters have not gone down, the minimum has not gone up and the
    maximum has not gone down from [s] to [s']. *)
Definition stats_mono (s s' : Stats) : Prop :=
  success s <= success s' /\ failed s <= failed s' /\
  latency_le (minLatency s') (minLatency s) /\
  maxLatency s <= maxLatency s'.

(** The four fields of [stats] that request outcomes drive. *)
Definition request_counters (s : Stats) : Z * Z * Latency * Z :=
  (success s, failed s, minLatency s, maxLatency s).

(** The override tokens as the specification lists them: 1.1, 2 and 3 are
    recognised, every other token is dropped. *)
Definition recognise (token : string) : option Val :=
  if decide (token = "1.1") then Some (VStr "h1.1")
  else if decide (token = "2") then Some (VStr "h2")
  else if decide (token = "3") then Some (VStr "h3")
  else None.

(** [while (continue) round], for at most [fuel] turns. *)
Fixpoint while_loop {S : Type} (fuel : nat) (continue : S -> bool)
    (round : S -> S) (s : S) : S :=
  match fuel with
  | O => s
  | S fuel' =>
      if continue s then while_loop fuel' continue round (round s) else s
  end.

(** The breaker and the environment: everything a run mutates. *)
Definition World : Type := CircuitBreaker.t * Env.

Section Program.

(** The argument check of [new Client(url, options)]: [Some err] when
    the constructor throws. *)
Variable Client_check : string -> option Error.

(** The target seen through undici: the reply to the request at the head
    of the wire, given everything sent so far. *)
Variable network : list Request -> Reply.

(** The target seen through [http2.connect]. *)
Variable h2net : list Request -> H2Reply.

(** The time (in ms) at which SIGINT arrives, if it does. *)
Variable sigint : option Z.

(** [new Client(url, { connect: {...}, pipelining })] *)
Definition new_Client (url : string) (pipelining : option Z) : M nat :=
  fun e =>
    match Client_check url with
    | Some err => (Throw err, e)
    | None =>
        let '(client, e1) := open_handle (UndiciClient pipelining) e in
        (Ok client, e1)
    end.

(** [await client.request({...})] *)
Definition request (r : Request) : M ResponseData :=
  fun e =>
    let e1 := send r e in
    let reply := network (wire e1) in
    let e2 := advance (elapsed reply) e1 in
    match answer reply with
    | Rejected err => (Throw err, e2)
    | Responded sc h drain_ns body_error =>
        (Ok (mkResponse sc h (drain_ns, body_error)), e2)
    end.

(** [for await (const _ of body) {}] *)
Definition drain (resp : ResponseData) : M unit :=
  fun e =>
    let e1 := advance (body resp).1 e in
    match (body resp).2 with
    | Some err => (Throw err, e1)
    | None => (Ok tt, e1)
    end.

(** [await client.close()] *)
Definition close (client : nat) : M unit := effect (release client).

(** [process.hrtime.bigint()] *)
Definition hrtime : M Z := fun e => (Ok (clock e), e).

(** async function detectProtocols(url) (lines 133-161).  The [catch]
    block (line 157) is written at each point where the [try] block can
    throw. *)
Definition detectProtocols (url : string) : M (list Val) :=
  fun e =>
    let protocols : list Val := [] in
    let '(protocols, e) :=
      match new_Client url None e with
      | (Throw _, e1) => (Set_add (VStr "h1.1") protocols, e1)
      | (Ok client, e1) =>
          match request (Head client) e1 with
          | (Throw _, e2) => (Set_add (VStr "h1.1") protocols, e2)
          | (Ok resp, e2) =>
              let protocols :=
                if advertises_h3 (alt_svc resp)
                then Set_add (VStr "h3") protocols else protocols in
              let protocols := Set_add (VStr "h2") protocols in
              let protocols := Set_add (VStr "h1.1") protocols in
              (protocols, release client e2)
          end
      end in
    (Ok protocols, e).

(** The closure handed to [breaker.execute] (lines 166-212): one request
    attempt over [proto]. *)
Definition attempt (url path : string) (proto : Val) : M Result :=
  let_await client :=
    (if decide (proto = VStr "h2") then new_Client url None
     else if decide (proto = VStr "h3") then new_Client url None
     else new_Client url (Some 1)) in
  let_await start := hrtime in
  let_await resp := request (Fetch client proto path) in
  await drain resp ;;
  await close client ;;
  let_await end_ := hrtime in
  let latency := end_ - start in
  await effect (with_stats (record_success (statusCode resp) latency proto)) ;;
  ret (mkResult (statusCode resp) latency proto).

(** The loop of [sendRequest] over the protocols still to try; [all] is
    the whole list, which line 214 looks at. *)
Fixpoint sendRequest_loop (url path : string) (all rest : list Val)
    (b : CircuitBreaker.t) (e : Env)
  : Outcome (option Result) * CircuitBreaker.t * Env :=
  match rest with
  | [] => (Ok None, b, e)
  | proto :: rest' =>
      match execute Date_now (attempt url path proto) b e with
      | (Ok result, b1, e1) => (Ok (Some result), b1, e1)
      | (Throw err, b1, e1) =>
          if decide (Some proto = last all) then
            (Throw err, b1, with_stats (record_failure err) e1)
          else sendRequest_loop url path all rest' b1 e1
      end
  end.

(** async function sendRequest(url, path, breaker, stats, protocols)
    (lines 163-222); [Ok None] is the [undefined] of a loop that ends
    without returning. *)
Definition sendRequest (url path : string) (protocols : list Val)
    (b : CircuitBreaker.t) (e : Env)
  : Outcome (option Result) * CircuitBreaker.t * Env :=
  sendRequest_loop url path protocols protocols b e.

(** One turn of the [while] loop of [rapidResetAttack] (lines 229-275). *)
Definition rapidResetAttack_round (url : string) (e : Env) : Env :=
  let reply := h2net (Connect (created e) :: wire e) in
  match connect reply with
  | ConnectThrows =>
      (* [client] stays undefined; catch: line 270 *)
      with_stats attack_error (advance (connect_ns reply) e)
  | ConnectFails =>
      let '(client, e1) := open_handle Http2Session e in
      let e2 := advance (connect_ns reply) (send (Connect client) e1) in
      release client (with_stats attack_error e2)
  | Connected accepted events =>
      let '(client, e1) := open_handle Http2Session e in
      let e2 := advance (connect_ns reply) (send (Connect client) e1) in
      let opened := Nat.min 50 accepted in
      let e3 :=
        Nat.iter opened
          (fun e => with_stats attack_sent (send (Stream client) e)) e2 in
      let e4 :=
        if Nat.ltb accepted 50 then with_stats attack_error e3
        else sleep 100 e3 in
      release client
        (with_stats
           (fun s => fold_left (fun s ev => stream_event ev s) events s) e4)
  end.

(** async function rapidResetAttack(url, stats, duration) (lines
    225-277): [while (Date.now() - startTime < duration)] over the turn
    above. *)
Definition rapidResetAttack_loop (fuel : nat) (url : string)
    (startTime duration : Z) : Env -> Env :=
  while_loop fuel (fun e => Date_now e - startTime <? duration)
    (rapidResetAttack_round url).

Definition rapidResetAttack (fuel : nat) (url : string) (duration : Z)
    (e : Env) : Env :=
  rapidResetAttack_loop fuel url (Date_now e) duration e.

(** [isRunning]: cleared by the SIGINT handler (lines 501-504). *)
Definition isRunning (e : Env) : bool :=
  match sigint with
  | Some t => Date_now e <? t
  | None => true
  end.

(** One turn of the [while] loop of [runWorker] (lines 524-540). *)
Definition runWorker_round (config : Config) (url path : string)
    (protocols : list Val) (w : World) : World :=
  match sendRequest url path protocols w.1 w.2 with
  | (Ok _, b, e) =>
      let e1 :=
        if adaptiveDelay config && bool_decide (getState b = OPEN)
        then sleep 1000 e else e in
      (b, e1)
  | (Throw _, b, e) =>
      (b, if bool_decide (getState b = OPEN) then sleep 2000 e else e)
  end.

(** const runWorker = async (workerId) => {...} (lines 522-542):
    [while (isRunning && Date.now() - startTime < durationMs)] over the
    turn above. *)
Definition runWorker (fuel : nat) (config : Config) (url path : string)
    (protocols : list Val) (startTime durationMs : Z) : World -> World :=
  while_loop fuel
    (fun w => isRunning w.2 && (Date_now w.2 - startTime <? durationMs))
    (runWorker_round config url path protocols).

(** [conc] tasks, each a loop [while (continue) round], interleaved one
    turn at a time in creation order, for at most [fuel] sweeps. *)
Fixpoint sweep (n : nat) (continue : World -> bool) (round : World -> World)
    (w : World) : World :=
  match n with
  | O => w
  | S n' => sweep n' continue round (if continue w then round w else w)
  end.

Fixpoint run_tasks (fuel n : nat) (continue : World -> bool)
    (round : World -> World) (w : World) : World :=
  match fuel with
  | O => w
  | S fuel' => run_tasks fuel' n continue round (sweep n continue round w)
  end.

(** The main test logic (lines 518-566). *)
Definition main_workload (config : Config) (url path : string)
    (protocols : list Val) (fuel : nat) (w : World) : World :=
  let startTime := Date_now w.2 in
  let durationMs := time config * 60 * 1000 in
  if decide (attack config = VStr "none") then
    run_tasks fuel (conc config)
      (fun w => isRunning w.2 && (Date_now w.2 - startTime <? durationMs))
      (runWorker_round config url path protocols) w
  else
    run_tasks fuel (conc config)
      (fun w => Date_now w.2 - startTime <? durationMs)
      (fun w => (w.1, rapidResetAttack_round url w.2)) w.

(** [protocolMap] (line 467), an object literal. *)
Definition protocolMap : list (string * Val) :=
  [ ("1.1", VStr "h1.1"); ("2", VStr "h2"); ("3", VStr "h3") ].

(** Line 468:
    [split(',').map(p => protocolMap[p.trim()]).filter(Boolean)]. *)
Definition parse_override (s : string) : list Val :=
  filter (fun v => truthy v = true)
    (map (fun p => Js.get protocolMap (Str.trim p)) (Str.split "," s)).

(** The protocol list the run proceeds with (lines 466-477). *)
Definition main_protocols (config : Config) (targetUrl : string)
  : M (list Val) :=
  let_await protocols :=
    (if truthy (protocol config) then
       match protocol config with
       | VStr s => ret (parse_override s)
       | _ => throw (mkError VUndefined
                       (Some "config.protocol.split is not a function"))
       end
     else detectProtocols targetUrl) in
  ret (if decide (length protocols = 0%nat) then [VStr "h1.1"]
       else protocols).

(** [main] from protocol detection to the end of the workload (lines
    462-566): the protocols in use and the final breaker and
    environment. *)
Definition main (config : Config) (targetUrl path : string) (fuel : nat)
  : Env -> Outcome (list Val) * World :=
  fun e =>
    match main_protocols config targetUrl e with
    | (Ok protocols, e1) =>
        let e2 := with_stats (fun _ => initial_stats) e1 in
        (Ok protocols,
         main_workload config targetUrl path protocols fuel
           (CircuitBreaker.new 15 8000 5, e2))
    | (Throw err, e1) => (Throw err, (CircuitBreaker.new 15 8000 5, e1))
    end.

(** The [pipelining] option the closure of [sendRequest] gives its client
    (lines 169-182). *)
Definition pipelining_of (proto : Val) : option Z :=
  if decide (proto = VStr "h2") then None
  else if decide (proto = VStr "h3") then None
  else Some 1.

(** The dispatcher as the specification words it (section 4.4): each
    protocol in list order through the breaker; return at the first
    success; at a failure, record it and propagate it when this was the
    last protocol in the list, else go on with the next one. *)
Fixpoint dispatch (url path : string) (protocols : list Val)
    (b : CircuitBreaker.t) (e : Env)
  : Outcome (option Result) * CircuitBreaker.t * Env :=
  match protocols with
  | [] => (Ok None, b, e)
  | proto :: rest =>
      match execute Date_now (attempt url path proto) b e with
      | (Ok result, b1, e1) => (Ok (Some result), b1, e1)
      | (Throw err, b1, e1) =>
          match rest with
          | [] => (Throw err, b1, with_stats (record_failure err) e1)
          | _ :: _ => dispatch url path rest b1 e1
          end
      end
  end.

(** The attempts over the protocols of the list, made in list order
    through the breaker, all fail: the dispatch comes to its final
    protocol, and the attempt over it fails too. *)
Fixpoint every_attempt_fails (url path : string) (protocols : list Val)
    (b : CircuitBreaker.t) (e : Env) : Prop :=
  match protocols with
  | [] => True
  | proto :: rest =>
      match execute Date_now (attempt url path proto) b e with
      | (Ok _, _, _) => False
      | (Throw _, b1, e1) => every_attempt_fails url path rest b1 e1
      end
  end.

(** The operations by which a run changes its breaker and environment. *)
Inductive run_op : World -> World -> Prop :=
  | op_sendRequest url path protocols b e :
      run_op (b, e)
        ((sendRequest url path protocols b e).1.2,
         (sendRequest url path protocols b e).2)
  | op_runWorker_round config url path protocols w :
      run_op w (runWorker_round config url path protocols w)
  | op_rapidResetAttack_round url b e :
      run_op (b, e) (b, rapidResetAttack_round url e)
  | op_sleep ms b e :
      run_op (b, e) (b, sleep ms e).

End Program.

End Engine.

(** ** Quantities read off a run *)

Module Tally.

Import CircuitBreaker Engine.

(** The number of rejected outcomes in a list of outcomes. *)
Fixpoint failures {R : Type} (rs : list (Outcome R)) : Z :=
  match rs with
  | [] => 0
  | Throw _ :: rs' => 1 + failures rs'
  | Ok _ :: rs' => failures rs'
  end.

(** The sum of the counts of a histogram. *)
Definition total `{Countable K} (h : gmap K Z) : Z :=
  map_fold (fun _ count acc => count + acc) 0 h.

(** Every histogram of [stats] sums to the counter it breaks down. *)
Definition balanced (s : Stats) : Prop :=
  total (statusCodes s) = success s /\
  total (protocols s) = success s /\
  total (errors s) = failed s /\
  total (attackStatus s) = attackReceived s.

(** Handles are handed out in increasing order: a live handle is one that
    has been created. *)
Definition handles_fresh (e : Env) : Prop :=
  forall k, is_Some (live e !! k) -> (k < created e)%nat.

(** The number of streams opened, among the requests sent. *)
Fixpoint streams_sent (sent : list Request) : Z :=
  match sent with
  | [] => 0
  | Stream _ :: sent' => 1 + streams_sent sent'
  | _ :: sent' => streams_sent sent'
  end.

(** The configuration with the [--adaptive-delay] flag set or cleared. *)
Definition with_adaptiveDelay (flag : bool) (c : Config) : Config :=
  mkConfig (time c) (conc c) (attack c) (protocol c) flag.

End Tally.

(** ** The report: [formatTime] and the top lists of [printReport] *)

Module Report.

Import Engine.

(** [s.padStart(n, c)] for a one-character filler. *)
Definition padStart (n : nat) (c : ascii) (s : string) : string :=
  String.append (string_of_list_ascii (repeat c (n - String.length s))) s.

(** The three fields of [formatTime(sec)] (lines 47-49), for the values
    its callers pass: [sec] is a whole number of milliseconds divided by
    1000 (lines 280 and 512-513), given here as that number [ms].
    [Math.floor] is the floor, [%] the remainder with the sign of the
    dividend. *)
Definition hours (ms : Z) : Z := ms / 3600000.

Definition minutes (ms : Z) : Z := Z.rem ms 3600000 / 60000.

Definition seconds (ms : Z) : Z := Z.rem ms 60000 / 1000.

(** const formatTime = (sec) => ... (lines 46-51), at [sec = ms / 1000]. *)
Definition formatTime (ms : Z) : string :=
  String.append (padStart 2 "0" (pretty (hours ms)))
    (String.append ":"
       (String.append (padStart 2 "0" (pretty (minutes ms)))
          (String.append ":" (padStart 2 "0" (pretty (seconds ms)))))).

(** [Array.prototype.sort] with a comparator: the sort is stable, so with
    a consistent comparator its result is the one of any stable sort.
    [before x y] says that the comparator is negative on [(x, y)]: [x]
    goes before [y].  Elements are inserted in input order, each after
    everything it does not go before. *)
Fixpoint insert_after {A : Type} (before : A -> A -> bool) (x : A)
    (l : list A) : list A :=
  match l with
  | [] => [x]
  | y :: l' =>
      if before x y then x :: l else y :: insert_after before x l'
  end.

Definition stable_sort {A : Type} (before : A -> A -> bool) (l : list A)
  : list A :=
  fold_left (fun acc x => insert_after before x acc) l [].

(** [Object.entries(h)] for a histogram keyed by status codes: such keys
    are array indices, which are listed in ascending numeric order. *)
Definition entries (h : gmap Z Z) : list (Z * Z) :=
  stable_sort (fun x y => x.1 <? y.1) (map_to_list h).

(** [.sort(([, a], [, b]) => b - a)]: the higher count first. *)
Definition by_count_desc (x y : Z * Z) : bool := y.2 <? x.2.

(** [Object.entries(h).sort(([, a], [, b]) => b - a).slice(0, n)] (lines
    321-323 and 334-336). *)
Definition top (n : nat) (h : gmap Z Z) : list (Z * Z) :=
  take n (stable_sort by_count_desc (entries h)).

(** [topCodes] (lines 321-323). *)
Definition topCodes (s : Stats) : list (Z * Z) := top 10 (statusCodes s).

(** The attack response codes listed at lines 332-340: none in mode
    'none' or when the histogram is empty. *)
Definition topAttackCodes (attackMode : Val) (s : Stats) : list (Z * Z) :=
  if decide (attackMode = VStr "none") then []
  else top 5 (attackStatus s).

(** The order of [Object.entries]: by rising status code. *)
Definition key_lt (x y : Z * Z) : Prop := x.1 < y.1.

(** The order of a top list: by falling count, and by rising status code
    among equal counts. *)
Definition ranks_before (x y : Z * Z) : Prop :=
  y.2 < x.2 \/ (x.2 = y.2 /\ x.1 < y.1).

End Report.

(** ** The command line: [parseArgs] *)

Module Cli.

(** A number as [parseInt] returns it: [None] is [NaN]. *)
Definition Num : Type := option Z.

Definition is_digit (c : ascii) : bool :=
  let n := nat_of_ascii c in Nat.leb 48 n && Nat.leb n 57.

(** The value of the longest prefix of decimal digits of [s], continuing
    from [acc]; [seen] tells whether a digit has been read. *)
Fixpoint digits (s : string) (seen : bool) (acc : Z) : Num :=
  match s with
  | String c s' =>
      if is_digit c
      then digits s' true (10 * acc + Z.of_nat (nat_of_ascii c - 48))
      else if seen then Some acc else None
  | EmptyString => if seen then Some acc else None
  end.

(** [parseInt(s, 10)]: leading white space is skipped, one sign is
    accepted, then the longest run of digits is read; [NaN] without a
    digit. *)
Definition parseInt (s : string) : Num :=
  match Str.trimStart s with
  | String "-" s' => Z.opp <$> digits s' false 0
  | String "+" s' => digits s' false 0
  | s' => digits s' false 0
  end.

(** [parseInt(args[++i], 10)]: a missing argument is [undefined], which
    gives [NaN]. *)
Definition parseInt_arg (v : option string) : Num :=
  match v with Some s => parseInt s | None => None end.

(** [args[++i]] as a value. *)
Definition arg_value (v : option string) : Val :=
  match v with Some s => VStr s | None => VUndefined end.

(** The [config] object of [parseArgs] (lines 363-370). *)
Record Options : Type := mkOptions {
  url : Val;
  time : Num;
  conc : Num;
  attack : Val;
  protocol : Val;
  adaptiveDelay : bool
}.

Definition defaults : Options :=
  {| url := VUndefined; time := Some 1; conc := Some 50;
     attack := VStr "none"; protocol := VUndefined;
     adaptiveDelay := false |}.

(** How [parseArgs] ends: it returns the configuration, or the process
    exits with a status. *)
Inductive Parsed : Type :=
  | Config (c : Options)
  | Exit (status : Z).

(** The option that takes a value, for the switch labels of lines
    374-393. *)
Inductive ValueFlag : Type := FUrl | FTime | FConc | FAttack | FProtocol.

Definition value_flag (arg : string) : option ValueFlag :=
  if decide (arg = "-u" \/ arg = "--url") then Some FUrl
  else if decide (arg = "-t" \/ arg = "--time") then Some FTime
  else if decide (arg = "-c" \/ arg = "--conc") then Some FConc
  else if decide (arg = "-a" \/ arg = "--attack") then Some FAttack
  else if decide (arg = "-p" \/ arg = "--protocol") then Some FProtocol
  else None.

Definition set_option (f : ValueFlag) (v : option string) (c : Options)
  : Options :=
  match f with
  | FUrl => mkOptions (arg_value v) (time c) (conc c) (attack c)
              (protocol c) (adaptiveDelay c)
  | FTime => mkOptions (url c) (parseInt_arg v) (conc c) (attack c)
               (protocol c) (adaptiveDelay c)
  | FConc => mkOptions (url c) (time c) (parseInt_arg v) (attack c)
               (protocol c) (adaptiveDelay c)
  | FAttack => mkOptions (url c) (time c) (conc c) (arg_value v)
                 (protocol c) (adaptiveDelay c)
  | FProtocol => mkOptions (url c) (time c) (conc c) (attack c)
                   (arg_value v) (adaptiveDelay c)
  end.

(** The [for] loop of [parseArgs] (lines 372-402), from the argument the
    index stands at; [fuel] is at least the number of arguments left. *)
Fixpoint parseArgs_loop (fuel : nat) (args : list string) (c : Options)
  : Parsed :=
  match fuel, args with
  | O, _ => Config c
  | _, [] => Config c
  | S fuel', arg :: rest =>
      match value_flag arg with
      | Some f =>
          parseArgs_loop fuel' (tail rest) (set_option f (head rest) c)
      | None =>
          if decide (arg = "--adaptive-delay") then
            parseArgs_loop fuel' rest
              (mkOptions (url c) (time c) (conc c) (attack c) (protocol c)
                 true)
          else if decide (arg = "-h" \/ arg = "--help") then Exit 0
          else parseArgs_loop fuel' rest c
      end
  end.

(** function parseArgs() (lines 361-411), on [process.argv.slice(2)]. *)
Definition parseArgs (args : list string) : Parsed :=
  match parseArgs_loop (length args) args defaults with
  | Config c => if truthy (url c) then Config c else Exit 1
  | Exit status => Exit status
  end.

(** The argument stands where the loop reads an option name, not where
    it reads the value of the option before it. *)
Fixpoint at_option (fuel : nat) (name : string) (args : list string)
  : Prop :=
  match fuel, args with
  | O, _ => False
  | _, [] => False
  | S fuel', arg :: rest =>
      arg = name \/
      match value_flag arg with
      | Some _ => at_option fuel' name (tail rest)
      | None => at_option fuel' name rest
      end
  end.

End Cli.

(** ** Scenarios used to exercise the model *)

Module Scenario.

Import CircuitBreaker Engine.

Definition refused : Error :=
  mkError (VStr "ECONNREFUSED") (Some "connect ECONNREFUSED 10.0.0.1:443").

Definition reset_by_peer : Error :=
  mkError (VStr "ECONNRESET") (Some "read ECONNRESET").

Definition timed_out : Error :=
  mkError (VNum 23) (Some "The operation was aborted due to timeout").

(** A breaker on its own: the environment is a clock in milliseconds,
    every operation takes 5 ms and callers wait 1 ms between calls. *)
Definition failing_op : @Op Z unit := fun now => (Throw refused, now + 5).

Definition passing_op : @Op Z unit := fun now => (Ok tt, now + 5).

Definition failing_call : @Call Z unit :=
  mkCall (fun now => now + 1) failing_op.

Definition passing_call : @Call Z unit :=
  mkCall (fun now => now + 1) passing_op.

(** Every URL is accepted by the client constructor. *)
Definition any_url : string -> option Error := fun _ => None.

(** A target that resets the first request and serves all later ones. *)
Definition reset_once : list Request -> Reply :=
  fun sent =>
    if Nat.eqb (length sent) 1
    then mkReply 2000000 (Rejected reset_by_peer)
    else mkReply 3000000 (Responded 200 HAbsent 1000000 None).

(** A target that refuses every connection. *)
Definition unreachable : list Request -> Reply :=
  fun _ => mkReply 1000000 (Rejected refused).

(** A target that never answers: the 8 s signal aborts the request. *)
Definition silent : list Request -> Reply :=
  fun _ => mkReply 8000000000 (Rejected timed_out).

(** A target that serves every request and advertises HTTP/3. *)
Definition serving : list Request -> Reply :=
  fun _ =>
    mkReply 3000000 (Responded 200 (HSingle "h3=:443; ma=86400") 1000000 None).

(** An HTTP/2 target that takes all 50 streams of a round. *)
Definition h2_target : list Request -> H2Reply :=
  fun _ => mkH2Reply 1000000 (Connected 50 [Response 200; StreamError]).

Definition target_url : string := "https://target.example:443".

Definition config : Config := mkConfig 1 2 (VStr "none") VUndefined false.

End Scenario.

(** Further targets and inputs. *)
Module Cases.

Import CircuitBreaker Engine.

(** A target that answers every request with 503. *)
Definition overloaded : list Request -> Reply :=
  fun _ => mkReply 3000000 (Responded 503 HAbsent 1000000 None).

(** A breaker of threshold 1 opened by a failure at 0 ms: OPEN until
    8000 ms. *)
Definition tripped : CircuitBreaker.t := on_failure 0 (new 1 8000 5).

(** A target that serves every request and sends the alt-svc header
    twice, once for h3 and once for h2: the client gives the values of a
    repeated header as an array. *)
Definition repeated_alt_svc : list Request -> Reply :=
  fun _ =>
    mkReply 3000000
      (Responded 200 (HMulti ["h3=:443; ma=86400"; "h2=:443; ma=86400"])
         1000000 None).

(** A command line with a duration that carries a unit. *)
Definition argv_rest : list string := ["-u"; "https://target.example:443"].

End Cases.

(** * Properties *)

(** ** The circuit breaker *)

Section BreakerFacts.

Import CircuitBreaker.

Context {Env R : Type} (Date_now : Env -> Z).

Implicit Types (b : CircuitBreaker.t) (e : Env) (fn : @Op Env R).
Implicit Types (cs : list (@Call Env R)).

Lemma gate_not_open now b :
  state b <> OPEN -> gate now b = Some b.
Proof. intros H. unfold gate. by destruct (decide (state b = OPEN)). Qed.

Lemma gate_open_early now b :
  state b = OPEN -> now < nextAttempt b -> gate now b = None.
Proof.
  intros Hs Hlt. unfold gate. rewrite decide_True by done.
  by rewrite (proj2 (Z.ltb_lt _ _) Hlt).
Qed.

Lemma gate_open_due now b :
  state b = OPEN -> nextAttempt b <= now ->
  gate now b = Some (set_successCount 0 (set_state HALF_OPEN b)).
Proof.
  intros Hs Hle. unfold gate. rewrite decide_True by done.
  by rewrite (proj2 (Z.ltb_ge _ _) Hle).
Qed.

(** A rejected call changes nothing and runs nothing: the result does
    not depend on [fn]. *)
Lemma execute_rejected fn b e :
  state b = OPEN -> Date_now e < nextAttempt b ->
  execute Date_now fn b e = (Throw circuit_open_error, b, e).
Proof. intros Hs Hlt. unfold execute. by rewrite gate_open_early. Qed.

Lemma execute_not_open fn b e :
  state b <> OPEN ->
  execute Date_now fn b e =
    match fn e with
    | (Ok r, e1) => (Ok r, on_success b, e1)
    | (Throw err, e1) => (Throw err, on_failure (Date_now e1) b, e1)
    end.
Proof. intros Hs. unfold execute. by rewrite gate_not_open. Qed.

(** Both counters stay at or above zero. *)
Lemma reachable_counts_nonneg b :
  reachable b -> 0 <= failCount b /\ 0 <= successCount b.
Proof.
  induction 1 as [th to h | now b b' _ [IHf IHs] Hg | b _ [IHf IHs]
                 | now b _ [IHf IHs]].
  - simpl. lia.
  - unfold gate in Hg. repeat case_match; simplify_eq; simpl; lia.
  - unfold on_success. repeat case_match; simpl; lia.
  - unfold on_failure. repeat case_match; simpl; lia.
Qed.

Lemma each_fails_take n : forall cs e,
  each_fails cs e -> each_fails (take n cs) e.
Proof.
  induction n as [|n IH]; intros [|c cs] e H; try done.
  destruct H as [Hc H]. split; [done|]. by apply IH.
Qed.

(** Failures below the threshold keep a closed breaker closed and are
    counted one by one. *)
Lemma run_calls_failures_closed cs : forall b e,
  state b = CLOSED ->
  each_fails cs e ->
  failCount b + Z.of_nat (length cs) < threshold b ->
  exists rs,
    run_calls Date_now cs b e =
      (rs, set_failCount (failCount b + Z.of_nat (length cs)) b,
       all_started cs e) /\
    Forall is_Throw rs.
Proof.
  induction cs as [|c cs IH]; intros b e Hs Hf Hlt.
  - exists []. split; [|constructor]. simpl. do 2 f_equal.
    destruct b; unfold set_failCount; simpl. f_equal. lia.
  - destruct Hf as [Hc Hf]. simpl length in Hlt.
    cbn [run_calls all_started fold_left].
    rewrite execute_not_open by (rewrite Hs; done).
    destruct (op c (ambient c e)) as [[r|err] e1]; [done|].
    simpl in Hf.
    assert (Hb1 : on_failure (Date_now e1) b =
                  set_failCount (failCount b + 1) b).
    { unfold on_failure. simpl. rewrite Hs, decide_False by done.
      destruct (Z.geb_spec (failCount b + 1) (threshold b)); [lia|done]. }
    rewrite Hb1.
    destruct (IH (set_failCount (failCount b + 1) b) e1)
      as (rs & Hrun & Hrs); [done | done | simpl; lia |].
    exists (Throw err :: rs). fold (all_started cs e1). rewrite Hrun.
    split; [|by constructor]. do 2 f_equal.
    unfold set_failCount. simpl. f_equal. lia.
Qed.

(** The failure that brings the counter to the threshold opens the
    breaker. *)
Lemma run_calls_failures_open cs : forall b e,
  state b = CLOSED ->
  each_fails cs e ->
  (1 <= length cs)%nat ->
  failCount b + Z.of_nat (length cs) = threshold b ->
  exists rs,
    run_calls Date_now cs b e =
      (rs,
       set_nextAttempt (Date_now (all_started cs e) + timeout b)
         (set_state OPEN (set_failCount (threshold b) b)),
       all_started cs e) /\
    Forall is_Throw rs.
Proof.
  induction cs as [|c cs IH]; intros b e Hs Hf Hlen Hth;
    [simpl in Hlen; lia|].
  destruct Hf as [Hc Hf]. simpl length in Hth.
  cbn [run_calls all_started fold_left].
  rewrite execute_not_open by (rewrite Hs; done).
  destruct (op c (ambient c e)) as [[r|err] e1]; [done|].
  simpl in Hf. destruct cs as [|c' cs'].
  - exists [Throw err]. split; [|by repeat constructor]. simpl.
    do 2 f_equal. unfold on_failure. simpl.
    rewrite Hs, decide_False by done.
    destruct (Z.geb_spec (failCount b + 1) (threshold b));
      [|simpl in Hth; lia].
    unfold set_nextAttempt, set_state, set_failCount. simpl. f_equal.
    simpl in Hth. lia.
  - assert (Hb1 : on_failure (Date_now e1) b =
                  set_failCount (failCount b + 1) b).
    { unfold on_failure. simpl. rewrite Hs, decide_False by done.
      destruct (Z.geb_spec (failCount b + 1) (threshold b)); [|done].
      simpl length in Hth. lia. }
    rewrite Hb1.
    destruct (IH (set_failCount (failCount b + 1) b) e1)
      as (rs & Hrun & Hrs); [done | done | simpl; lia | simpl in *; lia |].
    exists (Throw err :: rs). fold (all_started (c' :: cs') e1).
    rewrite Hrun. split; [done | by constructor].
Qed.

(** Calls made before [nextAttempt] on an open breaker are all rejected;
    the breaker does not move and no operation runs. *)
Lemma run_calls_rejected cs : forall b e,
  state b = OPEN ->
  made_before Date_now (nextAttempt b) cs e ->
  run_calls Date_now cs b e =
    (map (fun _ => Throw circuit_open_error) cs, b,
     ambient_only cs e).
Proof.
  induction cs as [|c cs IH]; intros b e Hs Hm; [done|].
  destruct Hm as [Hlt Hm]. cbn [run_calls].
  rewrite execute_rejected by done.
  rewrite (IH b (ambient c e) Hs Hm). done.
Qed.

(** Successes from HALF_OPEN: once the success counter reaches the
    trial count the breaker is closed with both counters at zero, and
    further successes leave it so. *)
Lemma run_calls_successes_close cs : forall b e,
  each_succeeds cs e ->
  (state b = HALF_OPEN /\
     halfOpenRequests b <= successCount b + Z.of_nat (length cs) /\
     (1 <= length cs)%nat) \/
  (state b = CLOSED /\ failCount b = 0 /\ successCount b = 0) ->
  exists rs b',
    run_calls Date_now cs b e = (rs, b', all_started cs e) /\
    Forall is_Ok rs /\
    state b' = CLOSED /\ failCount b' = 0 /\ successCount b' = 0.
Proof.
  induction cs as [|c cs IH]; intros b e Hf Hinv.
  - destruct Hinv as [(_ & _ & Hlen)|(? & ? & ?)]; [simpl in Hlen; lia|].
    exists [], b. split_and!; done.
  - destruct Hf as [Hc Hf].
    cbn [run_calls all_started fold_left].
    rewrite execute_not_open by (destruct Hinv as [(-> & _)|(-> & _)]; done).
    destruct (op c (ambient c e)) as [[r|err] e1]; [|done].
    simpl in Hf.
    destruct (IH (on_success b) e1 Hf) as (rs & b' & Hrun & Hrs & Hb').
    { unfold on_success.
      destruct Hinv as [(Hs & Hle & Hlen)|(Hs & Hfc & Hsc)].
      - rewrite Hs. rewrite decide_True by done. simpl.
        destruct (Z.geb_spec (successCount b + 1) (halfOpenRequests b)).
        + right. done.
        + left. simpl. rewrite Hs. simpl length in Hle.
          split_and!; [done | lia |].
          destruct cs; simpl in *; lia.
      - rewrite Hs. rewrite decide_False by done. right. simpl.
        rewrite Hfc. done. }
    exists (Ok r :: rs), b'. fold (all_started cs e1).
    rewrite Hrun. destruct Hb' as (? & ? & ?).
    split_and!; try done. by constructor.
Qed.

(** From HALF_OPEN, successes that keep the success counter below the
    trial count leave the breaker HALF_OPEN. *)
Lemma run_calls_successes_half_open cs : forall b e,
  each_succeeds cs e ->
  state b = HALF_OPEN ->
  successCount b + Z.of_nat (length cs) < halfOpenRequests b ->
  exists rs,
    run_calls Date_now cs b e =
      (rs, set_successCount (successCount b + Z.of_nat (length cs)) b,
       all_started cs e).
Proof.
  induction cs as [|c cs IH]; intros b e Hf Hs Hlt.
  - exists []. simpl. do 2 f_equal.
    destruct b; unfold set_successCount; simpl. f_equal. lia.
  - destruct Hf as [Hc Hf]. simpl length in Hlt.
    cbn [run_calls all_started fold_left].
    rewrite execute_not_open by (rewrite Hs; done).
    destruct (op c (ambient c e)) as [[r|err] e1]; [|done].
    simpl in Hf.
    assert (Hb1 : on_success b = set_successCount (successCount b + 1) b).
    { unfold on_success. rewrite Hs, decide_True by done. simpl.
      destruct (Z.geb_spec (successCount b + 1) (halfOpenRequests b));
        [lia|done]. }
    rewrite Hb1.
    destruct (IH (set_successCount (successCount b + 1) b) e1)
      as (rs & Hrun); [done | done | simpl; lia |].
    exists (Ok r :: rs). fold (all_started cs e1). rewrite Hrun.
    do 2 f_equal. unfold set_successCount. simpl. f_equal. lia.
Qed.

(** C1. A new breaker is CLOSED; [threshold] failed calls in a row, all
    of them let through, open it, not one call earlier, and set
    [nextAttempt] to the clock at the last failure plus [timeout].
    From then on every call made while the clock is below [nextAttempt]
    is rejected with the circuit-open error, its operation is not
    started (the result is the same for every [fn], the environment is
    untouched) and the breaker stays as it is, OPEN. *)
Theorem breaker_opens_after_threshold (th to h : Z) cs e :
  1 <= th ->
  Z.of_nat (length cs) = th ->
  each_fails cs e ->
  state (new th to h) = CLOSED /\
  exists rs b,
    run_calls Date_now cs (new th to h) e = (rs, b, all_started cs e) /\
    Forall is_Throw rs /\
    state b = OPEN /\
    nextAttempt b = Date_now (all_started cs e) + to /\
    (forall n, (n < length cs)%nat ->
       state (run_calls Date_now (take n cs) (new th to h) e).1.2 = CLOSED) /\
    (forall fn e', Date_now e' < nextAttempt b ->
       execute Date_now fn b e' = (Throw circuit_open_error, b, e')) /\
    (forall cs' e', made_before Date_now (nextAttempt b) cs' e' ->
       run_calls Date_now cs' b e' =
         (map (fun _ => Throw circuit_open_error) cs', b,
          ambient_only cs' e')).
Proof.
  intros Hth Hlen Hf. split; [done|].
  destruct (run_calls_failures_open cs (new th to h) e)
    as (rs & Hrun & Hrs); [done | done | lia | simpl; lia |].
  eexists rs, _. split; [exact Hrun|]. split_and!; try done.
  - intros n Hn.
    destruct (run_calls_failures_closed (take n cs) (new th to h) e)
      as (rs' & Hrun' & _).
    + done.
    + by apply each_fails_take.
    + simpl. rewrite length_take. lia.
    + by rewrite Hrun'.
  - intros fn e' Hlt. by apply execute_rejected.
  - intros cs' e' Hm. by apply run_calls_rejected.
Qed.

(** C2. (a) From OPEN, a call made once the clock has reached
    [nextAttempt] moves the breaker to HALF_OPEN with the success
    counter at zero and then starts the operation.  (b) From HALF_OPEN,
    [halfOpenRequests] successful calls in a row leave the breaker
    CLOSED with both counters at zero; counted from a success counter at
    zero, no smaller number of successes closes it.  (c) One failed call
    while HALF_OPEN leaves the breaker OPEN with [nextAttempt] set to
    the clock at the failure plus [timeout]. *)
Theorem breaker_half_open_cycle b :
  reachable b ->
  (state b = OPEN -> forall fn e, nextAttempt b <= Date_now e ->
     let b1 := set_successCount 0 (set_state HALF_OPEN b) in
     gate (Date_now e) b = Some b1 /\
     state b1 = HALF_OPEN /\ successCount b1 = 0 /\
     execute Date_now fn b e =
       match fn e with
       | (Ok r, e1) => (Ok r, on_success b1, e1)
       | (Throw err, e1) => (Throw err, on_failure (Date_now e1) b1, e1)
       end) /\
  (state b = HALF_OPEN -> 1 <= halfOpenRequests b -> forall cs e,
     each_succeeds cs e ->
     (Z.of_nat (length cs) = halfOpenRequests b ->
      exists rs b',
        run_calls Date_now cs b e = (rs, b', all_started cs e) /\
        Forall is_Ok rs /\
        state b' = CLOSED /\ failCount b' = 0 /\ successCount b' = 0) /\
     (successCount b = 0 -> Z.of_nat (length cs) < halfOpenRequests b ->
      state (run_calls Date_now cs b e).1.2 = HALF_OPEN)) /\
  (state b = HALF_OPEN -> forall fn e err e1,
     fn e = (Throw err, e1) ->
     exists b',
       execute Date_now fn b e = (Throw err, b', e1) /\
       state b' = OPEN /\
       nextAttempt b' = Date_now e1 + timeout b).
Proof.
  intros Hreach. split_and!.
  - intros Hs fn e Hdue. simpl. split_and!; try done.
    + by apply gate_open_due.
    + unfold execute. by rewrite gate_open_due.
  - intros Hs Hh cs e Hf. split.
    + intros Hlen.
      apply reachable_counts_nonneg in Hreach as [_ Hsc].
      apply run_calls_successes_close; [done|]. left.
      split_and!; [done | lia | lia].
    + intros Hsc Hlen.
      destruct (run_calls_successes_half_open cs b e)
        as (rs & Hrun); [done | done | lia |].
      by rewrite Hrun.
  - intros Hs fn e err e1 Hfn.
    rewrite execute_not_open by (rewrite Hs; done). rewrite Hfn.
    eexists. split; [done|]. unfold on_failure. simpl.
    rewrite Hs. rewrite decide_True by done. done.
Qed.

(** C3. A call that succeeds while the breaker is CLOSED lowers the
    failure counter by exactly one, or leaves it at zero when it is
    zero; the counter is not negative afterwards, the breaker is still
    CLOSED and nothing else in it has changed. *)
Theorem breaker_success_while_closed b fn e r e1 :
  reachable b ->
  state b = CLOSED ->
  fn e = (Ok r, e1) ->
  exists b',
    execute Date_now fn b e = (Ok r, b', e1) /\
    failCount b' = (if decide (failCount b = 0) then 0
                    else failCount b - 1) /\
    0 <= failCount b' /\
    state b' = CLOSED /\
    b' = set_failCount (failCount b') b.
Proof.
  intros Hreach Hs Hfn.
  apply reachable_counts_nonneg in Hreach as [Hfc _].
  rewrite execute_not_open by (rewrite Hs; done). rewrite Hfn.
  eexists. split; [done|]. unfold on_success.
  rewrite Hs. rewrite decide_False by done. simpl.
  split_and!; [case_decide; lia | lia | done | done].
Qed.

End BreakerFacts.

(** ** The engine *)

Section EngineFacts.

Local Open Scope list_scope.

Import CircuitBreaker Engine.

Variable Client_check : string -> option Error.
Variable network : list Request -> Reply.
Variable h2net : list Request -> H2Reply.
Variable sigint : option Z.

Abbreviation attempt := (attempt Client_check network).
Abbreviation sendRequest := (sendRequest Client_check network).
Abbreviation sendRequest_loop := (sendRequest_loop Client_check network).
Abbreviation dispatch := (dispatch Client_check network).
Abbreviation every_attempt_fails :=
  (every_attempt_fails Client_check network).
Abbreviation detectProtocols := (detectProtocols Client_check network).
Abbreviation rapidResetAttack_round := (rapidResetAttack_round h2net).
Abbreviation run_op := (run_op Client_check network h2net).

Implicit Types (b : CircuitBreaker.t) (e : Env) (proto : Val).
Implicit Types (protocols rest : list Val) (url path : string).

(** Every way one request attempt can end. *)
Lemma attempt_cases url path proto e :
  match Client_check url with
  | Some err => attempt url path proto e = (Throw err, e)
  | None =>
      let client := created e in
      let e1 := (open_handle (UndiciClient (pipelining_of proto)) e).2 in
      let e2 := send (Fetch client proto path) e1 in
      let e3 := advance (elapsed (network (wire e2))) e2 in
      match answer (network (wire e2)) with
      | Rejected err => attempt url path proto e = (Throw err, e3)
      | Responded sc h drain_ns (Some err) =>
          attempt url path proto e = (Throw err, advance drain_ns e3)
      | Responded sc h drain_ns None =>
          let latency := clock e3 + drain_ns - clock e in
          attempt url path proto e =
            (Ok (mkResult sc latency proto),
             with_stats (record_success sc latency proto)
               (release client (advance drain_ns e3)))
      end
  end.
Proof.
  unfold Engine.attempt, pipelining_of, bind, new_Client.
  destruct (Client_check url) as [err|] eqn:Hck.
  - repeat case_decide; done.
  - unfold hrtime, request, drain, close, effect, ret.
    repeat case_decide; simpl;
      destruct (answer _) as [err|sc h drain_ns [err|]]; done.
Qed.

(** A failed attempt leaves the statistics alone. *)
Lemma attempt_throw_stats url path proto e err e1 :
  attempt url path proto e = (Throw err, e1) -> stats e1 = stats e.
Proof.
  intros H. pose proof (attempt_cases url path proto e) as Hc.
  destruct (Client_check url); [rewrite Hc in H; by simplify_eq|].
  cbv zeta in Hc.
  destruct (answer _) as [?|? ? ? [?|]]; rewrite Hc in H; by simplify_eq.
Qed.

(** A successful attempt records exactly one success. *)
Lemma attempt_ok_stats url path proto e r e1 :
  attempt url path proto e = (Ok r, e1) ->
  stats e1 =
    record_success (res_statusCode r) (res_latency r) proto (stats e).
Proof.
  intros H. pose proof (attempt_cases url path proto e) as Hc.
  destruct (Client_check url); [rewrite Hc in H; by simplify_eq|].
  cbv zeta in Hc.
  destruct (answer _) as [?|? ? ? [?|]]; rewrite Hc in H; by simplify_eq.
Qed.

Lemma execute_attempt_throw_stats url path proto b e err b1 e1 :
  execute Date_now (attempt url path proto) b e = (Throw err, b1, e1) ->
  stats e1 = stats e.
Proof.
  unfold execute. intros H.
  destruct (gate _ _); [|by simplify_eq].
  destruct (attempt url path proto e) as [[r|err'] e'] eqn:Ha;
    simplify_eq. by eapply attempt_throw_stats.
Qed.

Lemma execute_attempt_ok_stats url path proto b e r b1 e1 :
  execute Date_now (attempt url path proto) b e = (Ok r, b1, e1) ->
  stats e1 =
    record_success (res_statusCode r) (res_latency r) proto (stats e).
Proof.
  unfold execute. intros H.
  destruct (gate _ _); [|by simplify_eq].
  destruct (attempt url path proto e) as [[r'|err'] e'] eqn:Ha;
    simplify_eq. by eapply attempt_ok_stats.
Qed.

(** What a propagated failure of the loop looks like: the last attempt
    made was over a protocol equal to the final one of the list, it
    failed with the propagated error, and the statistics differ from the
    initial ones by that one recorded failure. *)
Lemma sendRequest_loop_throw url path all rest : forall b e err b' e',
  sendRequest_loop url path all rest b e = (Throw err, b', e') ->
  exists proto b0 e0 e1,
    Some proto = last all /\
    execute Date_now (attempt url path proto) b0 e0 = (Throw err, b', e1) /\
    e' = with_stats (record_failure err) e1 /\
    stats e1 = stats e.
Proof.
  induction rest as [|proto rest IH]; intros b e err b' e' H; [done|].
  cbn [Engine.sendRequest_loop] in H.
  destruct (execute _ _ b e) as [[[r|err1] b1] e1] eqn:Hex; [done|].
  pose proof (execute_attempt_throw_stats _ _ _ _ _ _ _ _ Hex) as Hst.
  case_decide as Hlast.
  - simplify_eq. by exists proto, b, e, e1.
  - destruct (IH _ _ _ _ _ H) as (p & b0 & e0 & e2 & ? & ? & ? & Hst2).
    exists p, b0, e0, e2. split_and!; try done. congruence.
Qed.

(** What a fulfilled loop looks like: nothing but the success of one
    attempt has reached the statistics. *)
Lemma sendRequest_loop_ok url path all rest : forall b e r b' e',
  sendRequest_loop url path all rest b e = (Ok r, b', e') ->
  match r with
  | None => stats e' = stats e
  | Some res =>
      exists proto,
        proto ∈ rest /\
        stats e' =
          record_success (res_statusCode res) (res_latency res) proto
            (stats e)
  end.
Proof.
  induction rest as [|proto rest IH]; intros b e r b' e' H.
  - simpl in H. by simplify_eq.
  - cbn [Engine.sendRequest_loop] in H.
    destruct (execute _ _ b e) as [[[res|err1] b1] e1] eqn:Hex.
    + simplify_eq. exists proto. split; [left|].
      by eapply execute_attempt_ok_stats.
    + pose proof (execute_attempt_throw_stats _ _ _ _ _ _ _ _ Hex) as Hst.
      case_decide; [done|].
      specialize (IH _ _ _ _ _ H). destruct r as [res|].
      * destruct IH as (p & Hp & Hs). exists p. split; [by right|].
        congruence.
      * congruence.
Qed.

(** On a list that is not empty the loop does not fall through. *)
Lemma sendRequest_loop_settles url path all rest : forall b e,
  rest <> [] -> last rest = last all ->
  (sendRequest_loop url path all rest b e).1.1 <> Ok None.
Proof.
  induction rest as [|proto rest IH]; intros b e Hne Hlast; [done|].
  cbn [Engine.sendRequest_loop].
  destruct (execute _ _ b e) as [[[res|err1] b1] e1] eqn:Hex; [done|].
  case_decide as Hp; [done|].
  destruct rest as [|proto' rest'].
  - simpl in Hlast. congruence.
  - apply IH; [done|]. by rewrite <- Hlast.
Qed.

(** While the breaker rejects, the loop sends nothing: it reaches the
    final protocol and records the rejection there. *)
Lemma sendRequest_loop_rejected url path all rest : forall b e,
  rest <> [] -> last rest = last all ->
  state b = OPEN -> Date_now e < nextAttempt b ->
  sendRequest_loop url path all rest b e =
    (Throw circuit_open_error, b,
     with_stats (record_failure circuit_open_error) e).
Proof.
  induction rest as [|proto rest IH]; intros b e Hne Hlast Hs Hlt; [done|].
  cbn [Engine.sendRequest_loop]. rewrite execute_rejected by done.
  case_decide as Hp; [done|].
  destruct rest as [|proto' rest'].
  - simpl in Hlast. congruence.
  - apply IH; first [done | by rewrite <- Hlast].
Qed.

(** On a list without repetition the test of line 214 holds at the last
    position only, and [sendRequest] is the dispatcher of the
    specification. *)
Lemma sendRequest_loop_dispatch url path pre rest : forall b e,
  NoDup (pre ++ rest) ->
  sendRequest_loop url path (pre ++ rest) rest b e =
    dispatch url path rest b e.
Proof.
  revert pre. induction rest as [|proto rest IH]; intros pre b e Hnd; [done|].
  cbn [Engine.sendRequest_loop Engine.dispatch].
  destruct (execute _ _ b e) as [[[res|err1] b1] e1] eqn:Hex; [done|].
  rewrite last_app. cbn [last].
  destruct rest as [|proto' rest'].
  - simpl. by rewrite decide_True.
  - rewrite decide_False.
    + replace (pre ++ proto :: proto' :: rest')
        with ((pre ++ [proto]) ++ proto' :: rest')
        by (by rewrite <- app_assoc).
      apply IH. by rewrite <- app_assoc.
    + intros Heq. apply NoDup_app in Hnd as (_ & _ & Hnd).
      apply NoDup_cons in Hnd as [Hnotin _]. apply Hnotin.
      rewrite last_cons_cons in Heq.
      destruct (last (proto' :: rest')) as [x|] eqn:Hl.
      * simplify_eq. by apply last_Some_elem_of.
      * by apply last_None in Hl.
Qed.

Lemma sendRequest_dispatch url path protocols b e :
  NoDup protocols ->
  sendRequest url path protocols b e = dispatch url path protocols b e.
Proof. intros Hnd. by apply (sendRequest_loop_dispatch url path []). Qed.

(** *** The probe *)

(** The code's test admits no header that names no h3, and on an absent
    or single-valued header it is the test of the specification. *)
Lemma advertises_h3_names h :
  advertises_h3 h = true -> alt_svc_names_h3 h = true.
Proof.
  destruct h as [|v|vs]; simpl; [done | done |].
  intros Hin. apply bool_decide_eq_true_1 in Hin.
  apply existsb_exists. exists "h3". split; [|reflexivity].
  by apply list_elem_of_In.
Qed.

Lemma advertises_h3_single h :
  match h with HMulti _ => False | _ => True end ->
  advertises_h3 h = alt_svc_names_h3 h.
Proof. by destruct h. Qed.

(** [detectProtocols] fulfils for every target: it never throws.  When
    the handshake fails (the client constructor throws, or the HEAD
    request rejects: refused, TLS failure, timeout) the list is exactly
    [h1.1].  When the request is answered the list holds h2 and h1.1; it
    holds h3 only when the alt-svc header names h3, and, on a header that
    is absent or has a single value, whenever it does. *)
Lemma detectProtocols_fulfils url e :
  exists protocols e',
    detectProtocols url e = (Ok protocols, e') /\
    match Client_check url with
    | Some _ => protocols = [VStr "h1.1"]
    | None =>
        match answer (network (Head (created e) :: wire e)) with
        | Rejected _ => protocols = [VStr "h1.1"]
        | Responded _ h _ _ =>
            VStr "h2" ∈ protocols /\ VStr "h1.1" ∈ protocols /\
            (VStr "h3" ∈ protocols -> alt_svc_names_h3 h = true) /\
            (match h with
             | HMulti _ => True
             | _ => alt_svc_names_h3 h = true -> VStr "h3" ∈ protocols
             end) /\
            protocols =
              (if advertises_h3 h then [VStr "h3"] else []) ++
              [VStr "h2"; VStr "h1.1"]
        end
    end.
Proof.
  unfold Engine.detectProtocols, new_Client, request.
  destruct (Client_check url) as [err|].
  - eexists _, _. split; [reflexivity|]. done.
  - simpl. destruct (answer _) as [err|sc h drain_ns body_error].
    + eexists _, _. split; [reflexivity|]. done.
    + eexists _, _. split; [reflexivity|]. simpl.
      pose proof (advertises_h3_names h) as Hnames.
      pose proof (advertises_h3_single h) as Hsingle.
      destruct (advertises_h3 h) eqn:Hadv; vm_compute Set_add.
      * split_and!; [set_solver | set_solver | by auto | | done].
        destruct h; [intros _; set_solver | intros _; set_solver | done].
      * split_and!; [set_solver | set_solver | | | done].
        -- intros Hin.
           apply elem_of_cons in Hin as [?|Hin]; [done|].
           apply elem_of_cons in Hin as [?|Hin]; [done|].
           by apply elem_of_nil in Hin.
        -- destruct h as [|v|vs]; [| |done];
             rewrite <- Hsingle by done; done.
Qed.

(** C7, on the code.  A target that answers the HEAD request with the
    alt-svc header sent twice, once for h3 and once for h2: the header
    names h3, yet the list detected is [h2; h1.1].  The values of a
    repeated header come as an array, on which [includes('h3')] asks for
    an element equal to "h3" rather than for a value that contains it.
    The same two values sent as one header give [h3; h2; h1.1]. *)
Theorem detectProtocols_misses_repeated_alt_svc :
  let h := HMulti ["h3=:443; ma=86400"; "h2=:443; ma=86400"] in
  let h' := HSingle "h3=:443; ma=86400, h2=:443; ma=86400" in
  let served h0 : list Request -> Reply :=
    fun _ => mkReply 3000000 (Responded 200 h0 1000000 None) in
  Cases.repeated_alt_svc = served h /\
  alt_svc_names_h3 h = true /\
  alt_svc_names_h3 h' = true /\
  (Engine.detectProtocols Scenario.any_url (served h)
     Scenario.target_url (initial_env 0)).1 =
    Ok [VStr "h2"; VStr "h1.1"] /\
  (Engine.detectProtocols Scenario.any_url (served h')
     Scenario.target_url (initial_env 0)).1 =
    Ok [VStr "h3"; VStr "h2"; VStr "h1.1"].
Proof. vm_compute. done. Qed.

(** *** The dispatcher *)

(** C4, on the code.  With the protocol list [h2; h1.1; h2] and a target
    that resets the first request and serves the following ones, the
    failure of the first attempt (over h2) is recorded as a run failure
    and propagated: h2 is also the value of the last element, which is
    all that line 214 compares.  One request went out, h1.1 was not
    tried, although an attempt over it succeeds from the very state
    [sendRequest] leaves, and the dispatcher of the specification
    returns its response. *)
Theorem sendRequest_repeated_final_protocol :
  let protocols := [VStr "h2"; VStr "h1.1"; VStr "h2"] in
  let b := CircuitBreaker.new 15 8000 5 in
  let e := initial_env 0 in
  let run :=
    Engine.sendRequest Scenario.any_url Scenario.reset_once
      Scenario.target_url "/" protocols b e in
  run.1.1 = Throw Scenario.reset_by_peer /\
  wire run.2 = [Fetch 0 (VStr "h2") "/"] /\
  failed (stats run.2) = 1 /\
  (execute Date_now
     (Engine.attempt Scenario.any_url Scenario.reset_once
        Scenario.target_url "/" (VStr "h1.1")) run.1.2 run.2).1.1 =
    Ok (mkResult 200 4000000 (VStr "h1.1")) /\
  (Engine.dispatch Scenario.any_url Scenario.reset_once
     Scenario.target_url "/" protocols b e).1.1 =
    Ok (Some (mkResult 200 4000000 (VStr "h1.1"))).
Proof. vm_compute. done. Qed.

(** The key of [error_key], case by case. *)
Lemma error_key_cases err :
  (truthy (code err) = true -> error_key err = to_key (code err)) /\
  (truthy (code err) = false ->
     forall m, message err = Some m -> String.substring 0 20 m <> "" ->
     error_key err = String.substring 0 20 m) /\
  (truthy (code err) = false ->
     match message err with
     | None => True
     | Some m => String.substring 0 20 m = ""
     end ->
     error_key err = "UNKNOWN").
Proof.
  unfold error_key, or_else. split_and!.
  - intros Hc. by rewrite !Hc.
  - intros Hc m Hm Hne. rewrite Hc, Hm. simpl.
    destruct (String.eqb_spec (String.substring 0 20 m) ""); done.
  - intros Hc Hm. rewrite Hc. destruct (message err) as [m|]; [|done].
    simpl. by rewrite Hm.
Qed.

(** When every attempt fails the loop throws: it does not fall through
    and does not swallow the failure of the final protocol. *)
Lemma sendRequest_loop_all_fail url path all rest : forall b e,
  rest <> [] -> last rest = last all ->
  every_attempt_fails url path rest b e ->
  exists err b' e',
    sendRequest_loop url path all rest b e = (Throw err, b', e').
Proof.
  induction rest as [|proto rest IH]; intros b e Hne Hlast Hfail; [done|].
  cbn [Engine.sendRequest_loop Engine.every_attempt_fails] in *.
  destruct (execute _ _ b e) as [[[res|err1] b1] e1] eqn:Hex; [done|].
  case_decide as Hp; [by eexists _, _, _|].
  destruct rest as [|proto' rest'].
  - simpl in Hlast. congruence.
  - apply IH; [done | by rewrite <- Hlast | done].
Qed.

(** C5. A dispatch whose attempts all fail, the one over the final
    protocol included, throws, and has then recorded exactly one run
    failure: the error is the one of an attempt over (a protocol equal
    to) the final protocol of the list, [failed] is one higher and the
    histogram [errors] is one higher at the key of the error ([code]
    when truthy, else the first 20 characters of [message] when not
    empty, else "UNKNOWN"); nothing else in the statistics has changed.
    A dispatch made while the breaker rejects (OPEN, before
    [nextAttempt]) ends in this way with the circuit-open error, under
    the key "Circuit OPEN - Waiti", without any request on the wire or
    any client created. *)
Theorem sendRequest_records_exhaustion url path protocols b e :
  protocols <> [] ->
  every_attempt_fails url path protocols b e ->
  exists err b' e',
    sendRequest url path protocols b e = (Throw err, b', e') /\
    stats e' = record_failure err (stats e) /\
    failed (stats e') = failed (stats e) + 1 /\
    errors (stats e') !! error_key err =
      Some (default 0 (errors (stats e) !! error_key err) + 1) /\
    (forall k, k <> error_key err ->
       errors (stats e') !! k = errors (stats e) !! k) /\
    (exists proto b0 e0 e1,
       Some proto = last protocols /\
       execute Date_now (attempt url path proto) b0 e0 =
         (Throw err, b', e1)) /\
    error_key err =
      (if truthy (code err) then to_key (code err)
       else match message err with
            | Some m => if String.eqb (String.substring 0 20 m) ""
                        then "UNKNOWN" else String.substring 0 20 m
            | None => "UNKNOWN"
            end) /\
    (forall protocols0 b0 e0,
       protocols0 <> [] ->
       state b0 = OPEN -> Date_now e0 < nextAttempt b0 ->
       every_attempt_fails url path protocols0 b0 e0 /\
       sendRequest url path protocols0 b0 e0 =
         (Throw circuit_open_error, b0,
          with_stats (record_failure circuit_open_error) e0) /\
       error_key circuit_open_error = "Circuit OPEN - Waiti").
Proof.
  intros Hne Hfail.
  destruct (sendRequest_loop_all_fail url path protocols protocols b e
              Hne eq_refl Hfail) as (err & b' & e' & H).
  exists err, b', e'. split; [exact H|].
  destruct (sendRequest_loop_throw _ _ _ _ _ _ _ _ _ H)
    as (proto & b0 & e0 & e1 & Hlast & Hex & -> & Hst).
  assert (Hrec : stats (with_stats (record_failure err) e1) =
                 record_failure err (stats e)) by (simpl; congruence).
  rewrite Hrec. split_and!.
  - done.
  - done.
  - simpl. unfold bump. by rewrite lookup_insert_eq.
  - intros k Hk. simpl. unfold bump. by rewrite lookup_insert_ne.
  - by exists proto, b0, e0, e1.
  - unfold error_key, or_else.
    destruct (truthy (code err)) eqn:Hc; [by rewrite Hc|].
    destruct (message err) as [m|]; [|done]. simpl.
    by destruct (String.eqb (String.substring 0 20 m) "").
  - intros protocols0 b1 e2 Hne0 Hs Hlt. split_and!; [| |done].
    + clear Hne0. induction protocols0 as [|p ps IHp]; [done|].
      cbn [Engine.every_attempt_fails].
      by rewrite execute_rejected by done.
    + by apply sendRequest_loop_rejected.
Qed.

(** A dispatch that does not fail records no failure. *)
Lemma sendRequest_ok_no_failure url path protocols b e r b' e' :
  sendRequest url path protocols b e = (Ok r, b', e') ->
  failed (stats e') = failed (stats e) /\
  errors (stats e') = errors (stats e).
Proof.
  intros H. apply sendRequest_loop_ok in H. destruct r as [res|].
  - destruct H as (proto & _ & ->). done.
  - by rewrite H.
Qed.

(** On a list that is not empty [sendRequest] returns a response or
    throws. *)
Lemma sendRequest_settles url path protocols b e :
  protocols <> [] -> (sendRequest url path protocols b e).1.1 <> Ok None.
Proof. intros Hne. by apply sendRequest_loop_settles. Qed.


(** *** Connections *)

(** A failed attempt whose client was created keeps that client: nothing
    on the failure paths releases it. *)
Lemma attempt_failure_keeps_client url path proto e err e1 :
  Client_check url = None ->
  attempt url path proto e = (Throw err, e1) ->
  live e1 !! created e = Some (UndiciClient (pipelining_of proto)).
Proof.
  intros Hck H. pose proof (attempt_cases url path proto e) as Hc.
  rewrite Hck in Hc. cbv zeta in Hc.
  destruct (answer _) as [?|? ? ? [?|]]; rewrite Hc in H; simplify_eq;
    simpl; by rewrite lookup_insert_eq.
Qed.

(** A successful attempt has closed its client. *)
Lemma attempt_success_closes_client url path proto e r e1 :
  attempt url path proto e = (Ok r, e1) ->
  live e1 !! created e = None.
Proof.
  intros H. pose proof (attempt_cases url path proto e) as Hc.
  destruct (Client_check url); [rewrite Hc in H; by simplify_eq|].
  cbv zeta in Hc.
  destruct (answer _) as [?|? ? ? [?|]]; rewrite Hc in H; simplify_eq;
    simpl; by rewrite lookup_delete_eq.
Qed.

(** C6, on the code.  From an environment without any open handle: an
    attempt against a target that refuses the connection throws and
    leaves its client (handle 0) open; so does an attempt whose request is
    aborted by the timeout signal; only the attempt that is served to the
    end (line 198) closes it. *)
Theorem attempt_failure_leaves_client_open :
  let e := initial_env 0 in
  let refused_run :=
    Engine.attempt Scenario.any_url Scenario.unreachable
      Scenario.target_url "/" (VStr "h2") e in
  let aborted_run :=
    Engine.attempt Scenario.any_url Scenario.silent
      Scenario.target_url "/" (VStr "h1.1") e in
  let served_run :=
    Engine.attempt Scenario.any_url Scenario.serving
      Scenario.target_url "/" (VStr "h2") e in
  live e !! 0%nat = None /\
  refused_run.1 = Throw Scenario.refused /\
  live refused_run.2 !! 0%nat = Some (UndiciClient None) /\
  aborted_run.1 = Throw Scenario.timed_out /\
  live aborted_run.2 !! 0%nat = Some (UndiciClient (Some 1)) /\
  served_run.1 = Ok (mkResult 200 4000000 (VStr "h2")) /\
  live served_run.2 !! 0%nat = None.
Proof. vm_compute. done. Qed.

(** *** The protocol override *)

(** Away from the names inherited from [Object.prototype], the lookup in
    [protocolMap] is the table of the three tokens. *)
Lemma get_protocolMap token :
  token ∉ Object_prototype ->
  Js.get protocolMap token = default VUndefined (recognise token).
Proof.
  intros Hin. unfold Js.get, protocolMap, recognise. simpl.
  repeat case_decide; simplify_eq; done.
Qed.

(** When no token, once trimmed, is such a name, parsing maps 1.1, 2 and 3
    and drops every other token. *)
Lemma parse_override_recognised s :
  Forall (fun p => Str.trim p ∉ Object_prototype) (Str.split "," s) ->
  parse_override s = omap (fun p => recognise (Str.trim p)) (Str.split "," s).
Proof.
  unfold parse_override. induction (Str.split "," s) as [|p ps IH];
    intros Hf; [done|].
  apply Forall_cons in Hf as [Hp Hps]. cbn [map omap list_omap].
  rewrite get_protocolMap by done.
  destruct (recognise (Str.trim p)) as [v|] eqn:Hr; simpl.
  - assert (truthy v = true) as Hv.
    { unfold recognise in Hr. repeat case_decide; by simplify_eq. }
    rewrite filter_cons_True by done. by rewrite IH.
  - rewrite filter_cons_False by done. by rewrite IH.
Qed.

(** With such an override the run proceeds with the recognised tokens,
    or with [h1.1] when there is none. *)
Lemma main_protocols_override config url e s :
  protocol config = VStr s -> s <> "" ->
  Forall (fun p => Str.trim p ∉ Object_prototype) (Str.split "," s) ->
  main_protocols Client_check network config url e =
    (Ok (match omap (fun p => recognise (Str.trim p)) (Str.split "," s) with
         | [] => [VStr "h1.1"]
         | protocols => protocols
         end), e).
Proof.
  intros Hp Hs Hf. unfold main_protocols, bind, ret. rewrite Hp. simpl.
  destruct (String.eqb_spec s ""); [done|]. simpl.
  rewrite parse_override_recognised by done.
  by destruct (omap _ _).
Qed.

(** C8, on the code.  The token "constructor" is none of 1.1, 2, 3, yet
    it is not dropped: the lookup in the object literal [protocolMap]
    finds the member inherited from [Object.prototype], which
    [filter(Boolean)] keeps.  The run then proceeds with a list that is
    neither empty nor [h1.1]. *)
Theorem parse_override_keeps_inherited_name :
  recognise "constructor" = None /\
  parse_override "constructor" = [VBuiltin "constructor"] /\
  parse_override "2,toString" = [VStr "h2"; VBuiltin "toString"] /\
  (main_protocols Scenario.any_url Scenario.unreachable
     (mkConfig 1 50 (VStr "none") (VStr "constructor") false)
     Scenario.target_url (initial_env 0)).1 =
    Ok [VBuiltin "constructor"].
Proof. vm_compute. done. Qed.


(** *** The statistics *)

Lemma latency_le_refl l : latency_le l l.
Proof. destruct l; simpl; [lia|done]. Qed.

Lemma latency_le_trans l1 l2 l3 :
  latency_le l1 l2 -> latency_le l2 l3 -> latency_le l1 l3.
Proof. destruct l1, l2, l3; simpl; try done; lia. Qed.

Lemma stats_mono_refl s : stats_mono s s.
Proof. unfold stats_mono. split_and!; try lia. apply latency_le_refl. Qed.

Lemma stats_mono_trans s1 s2 s3 :
  stats_mono s1 s2 -> stats_mono s2 s3 -> stats_mono s1 s3.
Proof.
  intros (? & ? & ? & ?) (? & ? & ? & ?). unfold stats_mono.
  split_and!; try lia. by eapply latency_le_trans.
Qed.

Lemma stats_mono_counters s s' :
  request_counters s' = request_counters s -> stats_mono s s'.
Proof.
  unfold request_counters, stats_mono. intros [= -> -> -> ->].
  split_and!; try lia. apply latency_le_refl.
Qed.

(** A recorded success: [success] goes up by one, the minimum moves down
    or stays, the maximum moves up or stays. *)
Lemma record_success_mono sc latency proto s :
  stats_mono s (record_success sc latency proto s).
Proof.
  unfold stats_mono, record_success, lt_latency. simpl. split_and!; try lia.
  - destruct (minLatency s) as [m|]; simpl; [|done].
    destruct (Z.ltb_spec latency m); simpl; lia.
  - destruct (Z.gtb_spec latency (maxLatency s)); lia.
Qed.

(** A recorded failure: [failed] goes up by one. *)
Lemma record_failure_mono err s : stats_mono s (record_failure err s).
Proof.
  unfold stats_mono, record_failure. simpl. split_and!; try lia.
  apply latency_le_refl.
Qed.

(** What one call of [sendRequest] does to the statistics. *)
Lemma sendRequest_stats url path protocols b e :
  let e' := (sendRequest url path protocols b e).2 in
  stats e' = stats e \/
  (exists sc latency proto,
     stats e' = record_success sc latency proto (stats e)) \/
  (exists err, stats e' = record_failure err (stats e)).
Proof.
  destruct (sendRequest url path protocols b e) as [[[r|err] b'] e'] eqn:H;
    simpl.
  - apply sendRequest_loop_ok in H. destruct r as [res|].
    + destruct H as (proto & _ & ->). right; left. eauto.
    + by left.
  - apply sendRequest_loop_throw in H
      as (proto & b0 & e0 & e1 & _ & _ & -> & Hst).
    right; right. exists err. simpl. congruence.
Qed.

Lemma iter_attack_sent_counters r n e :
  request_counters
    (stats (Nat.iter n (fun e => with_stats attack_sent (send r e)) e)) =
  request_counters (stats e).
Proof. induction n as [|n IH]; [done|]. simpl. exact IH. Qed.

Lemma fold_stream_event_counters events : forall s,
  request_counters (fold_left (fun s ev => stream_event ev s) events s) =
  request_counters s.
Proof.
  induction events as [|ev events IH]; intros s; [done|].
  simpl. rewrite IH. by destruct ev.
Qed.

(** The attack driver does not touch the request counters. *)
Lemma rapidResetAttack_round_counters url e :
  request_counters (stats (rapidResetAttack_round url e)) =
  request_counters (stats e).
Proof.
  unfold Engine.rapidResetAttack_round.
  destruct (connect _) as [| |accepted events]; simpl; try done.
  rewrite fold_stream_event_counters.
  destruct (accepted <? 50)%nat; simpl;
    exact (iter_attack_sent_counters _ _ _).
Qed.

(** What one operation of a run does to the statistics. *)
Lemma run_op_stats w w' :
  run_op w w' ->
  request_counters (stats w'.2) = request_counters (stats w.2) \/
  (exists sc latency proto,
     stats w'.2 = record_success sc latency proto (stats w.2)) \/
  (exists err, stats w'.2 = record_failure err (stats w.2)).
Proof.
  destruct 1 as [url path protocols b e | config url path protocols [b e]
                | url b e | ms b e]; simpl.
  - destruct (sendRequest_stats url path protocols b e) as [->|H]; auto.
  - unfold Engine.runWorker_round. simpl.
    pose proof (sendRequest_stats url path protocols b e) as H.
    destruct (sendRequest url path protocols b e) as [[[r|err] b'] e'];
      simpl in *; repeat case_match; simpl;
      (destruct H as [->|H]; [by left | by right]).
  - left. apply rapidResetAttack_round_counters.
  - by left.
Qed.

Lemma run_op_mono w w' :
  run_op w w' -> stats_mono (stats w.2) (stats w'.2).
Proof.
  intros H. apply run_op_stats in H
    as [H|[(sc & latency & proto & ->)|(err & ->)]].
  - by apply stats_mono_counters.
  - apply record_success_mono.
  - apply record_failure_mono.
Qed.

Lemma sweep_ops n continue round : forall w,
  (forall w, run_op w (round w)) ->
  rtc run_op w (Engine.sweep n continue round w).
Proof.
  induction n as [|n IH]; intros w Hround; [done|].
  simpl. destruct (continue w).
  - eapply rtc_l; [apply Hround|]. by apply IH.
  - by apply IH.
Qed.

Lemma run_tasks_ops fuel n continue round : forall w,
  (forall w, run_op w (round w)) ->
  rtc run_op w (Engine.run_tasks fuel n continue round w).
Proof.
  induction fuel as [|fuel IH]; intros w Hround; [done|].
  simpl. etrans; [by apply sweep_ops|]. by apply IH.
Qed.

(** The workload of [main] is a sequence of run operations. *)
Lemma main_workload_ops config url path protocols fuel w :
  rtc run_op w
    (main_workload Client_check network h2net sigint config url path
       protocols fuel w).
Proof.
  unfold main_workload. case_decide.
  - apply run_tasks_ops. intros w0. constructor.
  - apply run_tasks_ops. intros [b e]. constructor.
Qed.

(** C9. Across the operations of a run, in any number and order, the
    success and failure counts do not decrease, [minLatency] does not
    increase and [maxLatency] does not decrease.  Each single operation
    leaves the four fields as they are, or records one success (one
    increment, the minimum lowered or kept, the maximum raised or kept),
    or records one failure (one increment): none resets a field.  The
    workload of [main], in either mode, consists of such operations. *)
Theorem stats_never_regress w w' :
  rtc run_op w w' ->
  stats_mono (stats w.2) (stats w'.2) /\
  (forall w1 w2, run_op w1 w2 ->
     request_counters (stats w2.2) = request_counters (stats w1.2) \/
     (exists sc latency proto,
        stats w2.2 = record_success sc latency proto (stats w1.2) /\
        success (stats w2.2) = success (stats w1.2) + 1 /\
        failed (stats w2.2) = failed (stats w1.2) /\
        minLatency (stats w2.2) =
          (if lt_latency latency (minLatency (stats w1.2))
           then Finite latency else minLatency (stats w1.2)) /\
        maxLatency (stats w2.2) = Z.max latency (maxLatency (stats w1.2))) \/
     (exists err,
        stats w2.2 = record_failure err (stats w1.2) /\
        request_counters (stats w2.2) =
          (success (stats w1.2), failed (stats w1.2) + 1,
           minLatency (stats w1.2), maxLatency (stats w1.2)))) /\
  (forall config url path protocols fuel,
     let w0 := main_workload Client_check network h2net sigint config url
                 path protocols fuel w in
     rtc run_op w w0 /\ stats_mono (stats w.2) (stats w0.2)).
Proof.
  assert (Hmono : forall w w', rtc run_op w w' ->
            stats_mono (stats w.2) (stats w'.2)).
  { induction 1 as [w0|w0 w1 w2 Hstep _ IH]; [apply stats_mono_refl|].
    eapply stats_mono_trans; [by apply run_op_mono | done]. }
  intros Hrun. split_and!.
  - by apply Hmono.
  - intros w1 w2 Hstep. apply run_op_stats in Hstep
      as [H|[(sc & latency & proto & H)|(err & H)]].
    + by left.
    + right; left. exists sc, latency, proto. rewrite H. simpl.
      split_and!; try done.
      destruct (Z.gtb_spec latency (maxLatency (stats w1.2))); lia.
    + right; right. exists err. by rewrite H.
  - intros config url path protocols fuel w0.
    pose proof (main_workload_ops config url path protocols fuel w) as Hops.
    split; [done | by apply Hmono].
Qed.

(** *** The attack modes *)

(** One task alone is its [while] loop. *)
Lemma run_tasks_single fuel continue round : forall w,
  run_tasks fuel 1 continue round w = while_loop fuel continue round w.
Proof.
  induction fuel as [|fuel IH]; intros w; [done|].
  simpl. destruct (continue w) eqn:Hc; [apply IH|].
  clear IH. induction fuel as [|fuel IH]; [done|].
  simpl. by rewrite Hc.
Qed.

(** A loop over the environment, run beside an untouched breaker. *)
Lemma while_loop_env fuel (continue : Env -> bool) (round : Env -> Env) :
  forall b e,
    while_loop fuel (fun w : World => continue w.2)
      (fun w => (w.1, round w.2)) (b, e) =
    (b, while_loop fuel continue round e).
Proof.
  induction fuel as [|fuel IH]; intros b e; [done|].
  simpl. destruct (continue e); [apply IH | done].
Qed.

(** With one task the attack branch of [main] is [rapidResetAttack]. *)
Lemma attack_workload_single_task fuel url startTime duration b e :
  run_tasks fuel 1
    (fun w => Date_now w.2 - startTime <? duration)
    (fun w => (w.1, rapidResetAttack_round url w.2)) (b, e) =
  (b, rapidResetAttack_loop h2net fuel url startTime duration e).
Proof.
  rewrite run_tasks_single.
  apply (while_loop_env fuel (fun e => Date_now e - startTime <? duration)).
Qed.

(** With one task the standard branch of [main] is [runWorker]. *)
Lemma standard_workload_single_task config url path protocols fuel w :
  attack config = VStr "none" -> conc config = 1%nat ->
  main_workload Client_check network h2net sigint config url path
    protocols fuel w =
  runWorker Client_check network sigint fuel config url path protocols
    (Date_now w.2) (time config * 60 * 1000) w.
Proof.
  intros Hmode Hconc. unfold main_workload.
  rewrite decide_True by done. rewrite Hconc. apply run_tasks_single.
Qed.

(** C10. Whatever the attack mode, as long as it is not 'none', the
    workload of [main] is the same: the tasks of the attack driver, each
    the loop of [rapidResetAttack] (open a session, open and cancel the
    streams, destroy the session), with no use of the mode, of the
    protocol list, of the breaker or of the dispatcher.  'rapid-reset'
    and 'madeyoureset' therefore run the same routine, and the whole of
    [main] is the same function for both. *)
Theorem attack_modes_run_same_routine mode mode' config url path protocols
    fuel w :
  mode <> VStr "none" -> mode' <> VStr "none" ->
  main_workload Client_check network h2net sigint
    (with_attack mode config) url path protocols fuel w =
  main_workload Client_check network h2net sigint
    (with_attack mode' config) url path protocols fuel w /\
  main_workload Client_check network h2net sigint
    (with_attack mode config) url path protocols fuel w =
  run_tasks fuel (conc config)
    (fun w0 => Date_now w0.2 - Date_now w.2 <? time config * 60 * 1000)
    (fun w0 => (w0.1, rapidResetAttack_round url w0.2)) w /\
  (conc config = 1%nat ->
   main_workload Client_check network h2net sigint
     (with_attack mode config) url path protocols fuel w =
   (w.1, rapidResetAttack h2net fuel url (time config * 60 * 1000) w.2)) /\
  (forall e,
     main Client_check network h2net sigint
       (with_attack (VStr "rapid-reset") config) url path fuel e =
     main Client_check network h2net sigint
       (with_attack (VStr "madeyoureset") config) url path fuel e).
Proof.
  intros Hmode Hmode'.
  assert (Hwl : forall m, m <> VStr "none" -> forall ps w1,
    main_workload Client_check network h2net sigint
      (with_attack m config) url path ps fuel w1 =
    run_tasks fuel (conc config)
      (fun w0 => Date_now w0.2 - Date_now w1.2 <? time config * 60 * 1000)
      (fun w0 => (w0.1, rapidResetAttack_round url w0.2)) w1).
  { intros m Hm ps w1. unfold main_workload. simpl.
    by rewrite decide_False. }
  split_and!.
  - by rewrite !Hwl.
  - by apply Hwl.
  - intros Hconc. rewrite Hwl by done. rewrite Hconc. destruct w as [b e].
    apply attack_workload_single_task.
  - intros e. unfold main, main_protocols. simpl.
    destruct (bind _ _ e) as [[ps|err] e1]; [|done].
    by rewrite !Hwl.
Qed.


End EngineFacts.

(** ** The theorems at work on the scenarios *)

Section Witnesses.

Import CircuitBreaker Engine Scenario.

Local Open Scope list_scope.

(** Three refused calls open a breaker of threshold 3. *)
Lemma breaker_opens_after_threshold_witness :
  let cs := [failing_call; failing_call; failing_call] in
  state (run_calls (fun now : Z => now) cs (new 3 1000 3) 0).1.2 = OPEN /\
  nextAttempt (run_calls (fun now : Z => now) cs (new 3 1000 3) 0).1.2 = 1018.
Proof.
  intros cs.
  destruct (breaker_opens_after_threshold (fun now : Z => now) 3 1000 3 cs 0)
    as (_ & rs & b & Hrun & _ & Hopen & Hnext & _).
  - lia.
  - reflexivity.
  - simpl. tauto.
  - rewrite Hrun. split; [exact Hopen | exact Hnext].
Defined.

(** A breaker of threshold 1 opened at 7 ms lets a call through at
    6000 ms as HALF_OPEN; three served calls then close it, and a refused
    call opens it again. *)
Lemma breaker_half_open_cycle_witness :
  let b_open := on_failure 7 (new 1 5000 3) in
  let b_half := set_successCount 0 (set_state HALF_OPEN b_open) in
  gate 6000 b_open = Some b_half /\
  (exists rs b',
     run_calls (fun now : Z => now) [passing_call; passing_call; passing_call]
       b_half 6000 = (rs, b', 6018) /\
     state b' = CLOSED /\ failCount b' = 0 /\ successCount b' = 0) /\
  (exists b',
     execute (fun now : Z => now) failing_op b_half 6000 =
       (Throw refused, b', 6005) /\
     state b' = OPEN /\ nextAttempt b' = 11005).
Proof.
  intros b_open b_half.
  assert (Hopen : reachable b_open) by apply reach_failure, reach_new.
  assert (Hhalf : reachable b_half)
    by (apply (reach_gate 6000 b_open); [exact Hopen | reflexivity]).
  split; [|split].
  - destruct (breaker_half_open_cycle (fun now : Z => now) (R:=unit)
                b_open Hopen) as (Ha & _).
    destruct (Ha eq_refl passing_op 6000) as (Hg & _); [simpl; lia|].
    exact Hg.
  - destruct (breaker_half_open_cycle (fun now : Z => now) (R:=unit)
                b_half Hhalf) as (_ & Hb & _).
    assert (Hh : 1 <= halfOpenRequests b_half) by (simpl; lia).
    destruct (Hb eq_refl Hh [passing_call; passing_call; passing_call] 6000)
      as (Hclose & _).
    + simpl. tauto.
    + destruct (Hclose eq_refl) as (rs & b' & Hrun & _ & Hb').
      exists rs, b'. split; [exact Hrun | exact Hb'].
  - destruct (breaker_half_open_cycle (fun now : Z => now) (R:=unit)
                b_half Hhalf) as (_ & _ & Hc).
    apply (Hc eq_refl failing_op 6000 refused 6005). reflexivity.
Defined.

(** After one refused call a served call brings the failure counter of a
    closed breaker from 1 back to 0. *)
Lemma breaker_success_while_closed_witness :
  exists b',
    execute (fun now : Z => now) passing_op
      (on_failure 0 (new 10 5000 3)) 100 = (Ok tt, b', 105) /\
    failCount b' = 0 /\ state b' = CLOSED.
Proof.
  destruct (breaker_success_while_closed (fun now : Z => now)
              (on_failure 0 (new 10 5000 3)) passing_op 100 tt 105)
    as (b' & Hex & Hfc & _ & Hs & _).
  - apply reach_failure, reach_new.
  - reflexivity.
  - reflexivity.
  - exists b'. split; [exact Hex|]. split; [exact Hfc | exact Hs].
Defined.

(** Against a target that refuses every connection, the dispatch over
    [h2; h1.1] throws and records one failure. *)
Lemma sendRequest_records_exhaustion_witness :
  exists err b' e',
    sendRequest any_url unreachable target_url "/" [VStr "h2"; VStr "h1.1"]
      (new 15 8000 5) (initial_env 0) = (Throw err, b', e') /\
    failed (stats e') = 1.
Proof.
  destruct (sendRequest_records_exhaustion any_url unreachable target_url "/"
              [VStr "h2"; VStr "h1.1"] (new 15 8000 5) (initial_env 0))
    as (err & b' & e' & Hrun & _ & Hfailed & _).
  - discriminate.
  - vm_compute. exact I.
  - exists err, b', e'. split; [exact Hrun | exact Hfailed].
Defined.

(** One dispatch against a serving target, seen as one operation of a
    run. *)
Lemma stats_never_regress_witness :
  let w := (new 15 8000 5, initial_env 0) in
  let run :=
    sendRequest any_url serving target_url "/" [VStr "h2"; VStr "h1.1"]
      w.1 w.2 in
  stats_mono (stats w.2) (stats run.2).
Proof.
  intros w run.
  destruct (stats_never_regress any_url serving h2_target None w
              (run.1.2, run.2)) as (Hmono & _).
  - apply rtc_once. apply op_sendRequest.
  - exact Hmono.
Defined.

(** 'rapid-reset' and 'madeyoureset' give the same workload. *)
Lemma attack_modes_run_same_routine_witness :
  let w := (new 15 8000 5, initial_env 0) in
  main_workload any_url serving h2_target None
    (with_attack (VStr "rapid-reset") config) target_url "/"
    [VStr "h2"; VStr "h1.1"] 3 w =
  main_workload any_url serving h2_target None
    (with_attack (VStr "madeyoureset") config) target_url "/"
    [VStr "h2"; VStr "h1.1"] 3 w.
Proof.
  intros w.
  destruct (attack_modes_run_same_routine any_url serving h2_target None
              (VStr "rapid-reset") (VStr "madeyoureset") config target_url
              "/" [VStr "h2"; VStr "h1.1"] 3 w) as (Hsame & _).
  - discriminate.
  - discriminate.
  - exact Hsame.
Defined.

End Witnesses.

(** ** The model at work on the scenarios *)

Section Examples.

Import CircuitBreaker Engine Scenario.

Local Open Scope list_scope.

Example parse_override_all_three :
  parse_override "1.1,2,3" = [VStr "h1.1"; VStr "h2"; VStr "h3"].
Proof. reflexivity. Qed.

Example parse_override_spaces_and_unknown :
  parse_override " 2 ,http2,,1.1" = [VStr "h2"; VStr "h1.1"].
Proof. reflexivity. Qed.

Example main_protocols_unknown_only :
  (main_protocols any_url unreachable
     (mkConfig 1 50 (VStr "none") (VStr "quic") false) target_url
     (initial_env 0)).1 = Ok [VStr "h1.1"].
Proof. reflexivity. Qed.

Example detectProtocols_serving :
  (detectProtocols any_url serving target_url (initial_env 0)).1 =
    Ok [VStr "h3"; VStr "h2"; VStr "h1.1"].
Proof. reflexivity. Qed.

Example detectProtocols_unreachable :
  (detectProtocols any_url unreachable target_url (initial_env 0)).1 =
    Ok [VStr "h1.1"].
Proof. reflexivity. Qed.

Example error_key_circuit_open :
  error_key circuit_open_error = "Circuit OPEN - Waiti".
Proof. reflexivity. Qed.

Example error_key_timeout : error_key timed_out = "23".
Proof. vm_compute. reflexivity. Qed.

(** Failover: h2 is reset, h1.1 is served; one failure reaches the
    breaker, none reaches the statistics. *)
Example sendRequest_failover :
  let run :=
    sendRequest any_url reset_once target_url "/" [VStr "h2"; VStr "h1.1"]
      (new 15 8000 5) (initial_env 0) in
  run.1.1 = Ok (Some (mkResult 200 4000000 (VStr "h1.1"))) /\
  failCount run.1.2 = 0 /\
  success (stats run.2) = 1 /\ failed (stats run.2) = 0 /\
  wire run.2 = [Fetch 1 (VStr "h1.1") "/"; Fetch 0 (VStr "h2") "/"].
Proof. vm_compute. done. Qed.

(** A single protocol that fails: one run failure, propagated. *)
Example sendRequest_single_failure :
  let run :=
    sendRequest any_url unreachable target_url "/" [VStr "h2"]
      (new 15 8000 5) (initial_env 0) in
  run.1.1 = Throw refused /\ failCount run.1.2 = 1 /\
  failed (stats run.2) = 1.
Proof. vm_compute. done. Qed.

(** One turn of the attack driver: 50 streams sent, one response and one
    stream error counted, the session destroyed. *)
Example rapidResetAttack_one_round :
  let e := rapidResetAttack_round h2_target target_url (initial_env 0) in
  attackSent (stats e) = 50 /\ attackReceived (stats e) = 1 /\
  attackErrors (stats e) = 1 /\ live e !! 0%nat = None /\
  clock e = 101000000.
Proof. vm_compute. done. Qed.

End Examples.

(** * Further properties of the code *)

(** ** The circuit breaker: invariants *)

Section BreakerInvariants.

Import CircuitBreaker Tally.

Context {Env R : Type} (Date_now : Env -> Z).

Implicit Types (b : CircuitBreaker.t) (e : Env) (fn : @Op Env R).
Implicit Types (cs : list (@Call Env R)).

Local Open Scope list_scope.

(** X1. With a threshold and a trial count of at least one, every state
    an instance can reach keeps the counters within their bounds: a
    CLOSED breaker has counted fewer failures than [threshold], a
    HALF_OPEN breaker fewer successes than [halfOpenRequests], and
    neither counter is negative. *)
Theorem breaker_counters_bounded b :
  reachable b ->
  1 <= threshold b -> 1 <= halfOpenRequests b ->
  (state b = CLOSED -> failCount b < threshold b) /\
  (state b = HALF_OPEN -> successCount b < halfOpenRequests b) /\
  0 <= failCount b /\ 0 <= successCount b.
Proof.
  induction 1 as [th to h | now b b' _ IH Hg | b _ IH | now b _ IH].
  - simpl. intros. split_and!; try done; lia.
  - unfold gate in Hg. destruct b as [fc sc th to h st na]. simpl in *.
    destruct (decide (st = OPEN)) as [->|Hst].
    + destruct (now <? na); simplify_eq. simpl. intros Hth Hh.
      destruct (IH Hth Hh) as (_ & _ & ? & ?).
      split_and!; try done; lia.
    + by simplify_eq.
  - destruct b as [fc sc th to h st na]. unfold on_success. simpl in *.
    destruct (decide (st = HALF_OPEN)) as [->|Hst].
    + destruct (Z.geb_spec (sc + 1) h); simpl; intros Hth Hh;
        destruct (IH Hth Hh) as (_ & _ & ? & ?);
        split_and!; try done; lia.
    + simpl. intros Hth Hh. destruct (IH Hth Hh) as (Hc & Hho & ? & ?).
      split_and!; try done; try lia.
      intros Hcl. specialize (Hc Hcl). lia.
  - destruct b as [fc sc th to h st na]. unfold on_failure. simpl in *.
    destruct (decide (st = HALF_OPEN)) as [->|Hst].
    + simpl. intros Hth Hh. destruct (IH Hth Hh) as (_ & _ & ? & ?).
      split_and!; try done; lia.
    + destruct (Z.geb_spec (fc + 1) th); simpl; intros Hth Hh;
        destruct (IH Hth Hh) as (Hc & Hho & ? & ?);
        split_and!; try done; lia.
Qed.

(** Failures and successes in any order leave a closed breaker closed as
    long as the failures met so far stay below the threshold. *)
Lemma run_calls_few_failures cs : forall b e,
  state b = CLOSED -> 0 <= failCount b ->
  failCount b + failures (run_calls Date_now cs b e).1.1 < threshold b ->
  state (run_calls Date_now cs b e).1.2 = CLOSED /\
  0 <= failCount (run_calls Date_now cs b e).1.2 <=
    failCount b + failures (run_calls Date_now cs b e).1.1.
Proof.
  induction cs as [|c cs IH]; intros b e Hs Hfc;
    [simpl; intros; split; [done|lia]|].
  cbn [run_calls].
  rewrite execute_not_open by (rewrite Hs; done).
  destruct (op c (ambient c e)) as [[r|err] e1].
  - specialize (IH (on_success b) e1).
    destruct (run_calls Date_now cs (on_success b) e1) as [[rs b2] e2].
    simpl in *. intros Hlt.
    assert (Hb1 : state (on_success b) = CLOSED /\
                  0 <= failCount (on_success b) <= failCount b /\
                  threshold (on_success b) = threshold b).
    { unfold on_success. rewrite Hs, decide_False by done. simpl.
      repeat split; try done; lia. }
    destruct Hb1 as (Hs1 & Hfc1 & Hth1). rewrite Hth1 in IH.
    destruct IH as [? ?]; [done | lia | lia |]. split; [done | lia].
  - specialize (IH (on_failure (Date_now e1) b) e1).
    destruct (run_calls Date_now cs (on_failure (Date_now e1) b) e1)
      as [[rs b2] e2].
    simpl in *. intros Hlt.
    assert (Hrs : 0 <= failures rs).
    { clear. induction rs as [|[?|?] rs IHrs]; simpl; lia. }
    assert (Hb1 : state (on_failure (Date_now e1) b) = CLOSED /\
                  failCount (on_failure (Date_now e1) b) = failCount b + 1 /\
                  threshold (on_failure (Date_now e1) b) = threshold b).
    { unfold on_failure. simpl. rewrite Hs, decide_False by done.
      destruct (Z.geb_spec (failCount b + 1) (threshold b)); [lia|done]. }
    destruct Hb1 as (Hs1 & Hfc1 & Hth1). rewrite Hth1, Hfc1 in IH.
    destruct IH as [? ?]; [done | lia | lia |]. split; [done | lia].
Qed.

(** X2. It takes [threshold] failures to open a new breaker: after any
    sequence of calls, failed and successful in any order, in which fewer
    than [threshold] calls failed, the breaker is still CLOSED and its
    failure counter is at most the number of failures. *)
Theorem breaker_needs_threshold_failures (th to h : Z) cs e :
  failures (run_calls Date_now cs (new th to h) e).1.1 < th ->
  state (run_calls Date_now cs (new th to h) e).1.2 = CLOSED /\
  failCount (run_calls Date_now cs (new th to h) e).1.2 <=
    failures (run_calls Date_now cs (new th to h) e).1.1.
Proof.
  intros Hlt.
  destruct (run_calls_few_failures cs (new th to h) e) as [Hs Hfc];
    [done | simpl; lia | simpl; lia |].
  split; [done|]. simpl in Hfc. lia.
Qed.

(** The breaker passes the outcome of the operation through: what
    [execute] returns is the circuit-open error, with nothing run, or
    the very outcome of [fn]. *)
Lemma execute_ok_not_open fn b e r b' e' :
  execute Date_now fn b e = (Ok r, b', e') ->
  state b' <> OPEN /\ fn e = (Ok r, e').
Proof.
  unfold execute, gate. intros H.
  destruct b as [fc sc th to h st na]. simpl in *.
  repeat case_match; simplify_eq;
    unfold on_success, reset, set_successCount, set_failCount, set_state;
    simpl; repeat case_match; simpl in *; subst; done.
Qed.

End BreakerInvariants.

(** ** The dispatcher and the worker: further properties *)

Section DispatchFacts.

Import CircuitBreaker Engine Tally.

Variable Client_check : string -> option Error.
Variable network : list Request -> Reply.
Variable h2net : list Request -> H2Reply.
Variable sigint : option Z.

Abbreviation attempt := (attempt Client_check network).
Abbreviation sendRequest := (sendRequest Client_check network).
Abbreviation sendRequest_loop := (sendRequest_loop Client_check network).
Abbreviation detectProtocols := (detectProtocols Client_check network).
Abbreviation runWorker_round := (runWorker_round Client_check network).
Abbreviation runWorker := (runWorker Client_check network sigint).
Abbreviation main_protocols := (main_protocols Client_check network).

Implicit Types (b : CircuitBreaker.t) (e : Env) (proto : Val).
Implicit Types (protocols rest : list Val) (url path : string).

Local Open Scope list_scope.

(** The result of a successful attempt names the protocol it was made
    over. *)
Lemma attempt_ok_proto url path proto e r e1 :
  attempt url path proto e = (Ok r, e1) -> res_proto r = proto.
Proof.
  intros H. pose proof (attempt_cases Client_check network url path proto e)
    as Hc.
  destruct (Client_check url); [rewrite Hc in H; by simplify_eq|].
  cbv zeta in Hc.
  destruct (answer _) as [?|? ? ? [?|]]; rewrite Hc in H; by simplify_eq.
Qed.

(** An attempt puts at most one request on the wire, its own. *)
Lemma attempt_wire url path proto e o e1 :
  attempt url path proto e = (o, e1) ->
  wire e1 = wire e \/ wire e1 = Fetch (created e) proto path :: wire e.
Proof.
  intros H. pose proof (attempt_cases Client_check network url path proto e)
    as Hc.
  destruct (Client_check url); [rewrite Hc in H; simplify_eq; by left|].
  cbv zeta in Hc.
  destruct (answer _) as [?|? ? ? [?|]]; rewrite Hc in H; simplify_eq;
    by right.
Qed.

Lemma sendRequest_loop_ok_proto url path all rest :
  forall b e res b' e',
    sendRequest_loop url path all rest b e = (Ok (Some res), b', e') ->
    res_proto res ∈ rest /\
    stats e' =
      record_success (res_statusCode res) (res_latency res) (res_proto res)
        (stats e) /\
    state b' <> OPEN.
Proof.
  induction rest as [|proto rest IH]; intros b e res b' e' H; [done|].
  cbn [Engine.sendRequest_loop] in H.
  destruct (execute _ _ b e) as [[[res1|err1] b1] e1] eqn:Hex.
  - simplify_eq. pose proof Hex as Hex'.
    apply execute_ok_not_open in Hex as [Hst Hat].
    rewrite (attempt_ok_proto _ _ _ _ _ _ Hat).
    split_and!; [left | | done].
    apply execute_attempt_ok_stats in Hex'. done.
  - pose proof (execute_attempt_throw_stats _ _ _ _ _ _ _ _ _ _ Hex) as Hst.
    case_decide; [done|].
    destruct (IH _ _ _ _ _ H) as (Hin & Hs & Hopen).
    split_and!; [by right | congruence | done].
Qed.

(** X3. A dispatch that returns a response has recorded exactly one
    success, for a protocol of the list that the result names: [success]
    is one higher, the latency is added to [totalLatency], the histograms
    [statusCodes] and [protocols] are one higher at the status code and
    at the protocol of the result, and no failure has been recorded,
    however many earlier protocols failed. *)
Theorem sendRequest_success_recorded url path protocols b e res b' e' :
  sendRequest url path protocols b e = (Ok (Some res), b', e') ->
  res_proto res ∈ protocols /\
  success (stats e') = success (stats e) + 1 /\
  totalLatency (stats e') = totalLatency (stats e) + res_latency res /\
  statusCodes (stats e') !! res_statusCode res =
    Some (default 0 (statusCodes (stats e) !! res_statusCode res) + 1) /\
  Engine.protocols (stats e') !! to_key (res_proto res) =
    Some (default 0 (Engine.protocols (stats e) !! to_key (res_proto res))
          + 1) /\
  failed (stats e') = failed (stats e) /\
  errors (stats e') = errors (stats e).
Proof.
  intros H. apply sendRequest_loop_ok_proto in H as (Hin & -> & _).
  simpl. unfold bump. rewrite !lookup_insert_eq. done.
Qed.

(** X4. The status code plays no part in the outcome: when the target
    answers the request of the first protocol and the body drains, the
    dispatch returns that response whatever the code is (a 503 as well as
    a 200), the breaker counts a success, and no failure is recorded. *)
Theorem answered_request_is_success url path proto rest b b1 e sc h d :
  Client_check url = None ->
  gate (Date_now e) b = Some b1 ->
  answer (network (Fetch (created e) proto path :: wire e)) =
    Responded sc h d None ->
  exists latency e',
    sendRequest url path (proto :: rest) b e =
      (Ok (Some (mkResult sc latency proto)), on_success b1, e') /\
    success (stats e') = success (stats e) + 1 /\
    failed (stats e') = failed (stats e) /\
    failCount (on_success b1) <= Z.max 0 (failCount b1).
Proof.
  intros Hck Hg Hans.
  pose proof (attempt_cases Client_check network url path proto e) as Hc.
  rewrite Hck in Hc. cbv zeta in Hc. simpl in Hc. rewrite Hans in Hc.
  eexists _, _. split_and!.
  - unfold Engine.sendRequest. cbn [Engine.sendRequest_loop].
    unfold execute. rewrite Hg, Hc. reflexivity.
  - done.
  - done.
  - unfold on_success. repeat case_match; simpl; lia.
Qed.

Lemma execute_attempt_wire url path proto b e o b1 e1 :
  execute Date_now (attempt url path proto) b e = (o, b1, e1) ->
  wire e1 = wire e \/ wire e1 = Fetch (created e) proto path :: wire e.
Proof.
  unfold execute. intros H.
  destruct (gate _ _); [|simplify_eq; by left].
  destruct (attempt url path proto e) as [[r|err] e'] eqn:Ha;
    simplify_eq; by eapply attempt_wire.
Qed.

Lemma sendRequest_loop_wire url path all rest : forall b e,
  exists sent,
    wire (sendRequest_loop url path all rest b e).2 = sent ++ wire e /\
    (length sent <= length rest)%nat /\
    Forall (fun r => exists client proto,
              r = Fetch client proto path /\ proto ∈ rest) sent.
Proof.
  induction rest as [|proto rest IH]; intros b e.
  - exists []. simpl. split_and!; [done | lia | constructor].
  - cbn [Engine.sendRequest_loop].
    destruct (execute _ _ b e) as [[o b1] e1] eqn:Hex.
    pose proof (execute_attempt_wire _ _ _ _ _ _ _ _ Hex) as Hw.
    assert (Hone : exists sent1, wire e1 = sent1 ++ wire e /\
              (length sent1 <= 1)%nat /\
              Forall (fun r => exists client proto',
                        r = Fetch client proto' path /\
                        proto' ∈ proto :: rest) sent1).
    { destruct Hw as [->| ->].
      - exists []. split_and!; [done | simpl; lia | constructor].
      - exists [Fetch (created e) proto path].
        split_and!; [done | simpl; lia |].
        repeat constructor. eexists _, _. split; [done | left]. }
    destruct Hone as (sent1 & Hw1 & Hl1 & Hf1).
    destruct o as [res|err].
    + exists sent1. simpl. split_and!; [done | lia | done].
    + case_decide.
      * exists sent1. simpl. split_and!; [done | lia | done].
      * destruct (IH b1 e1) as (sent & Hw2 & Hl2 & Hf2).
        exists (sent ++ sent1). rewrite Hw2, Hw1.
        split_and!; [by rewrite app_assoc | rewrite length_app; simpl; lia |].
        apply Forall_app. split; [|done].
        eapply Forall_impl; [exact Hf2|].
        intros r (c & p & -> & Hp). eexists _, _. split; [done | by right].
Qed.

(** X5. One dispatch sends at most one request per protocol of the list,
    each of them a request of [sendRequest] for the given path over a
    protocol of the list, and what was on the wire before stays. *)
Theorem sendRequest_sends_at_most_one_per_protocol url path protocols b e :
  exists sent,
    wire (sendRequest url path protocols b e).2 = sent ++ wire e /\
    (length sent <= length protocols)%nat /\
    Forall (fun r => exists client proto,
              r = Fetch client proto path /\ proto ∈ protocols) sent.
Proof. apply sendRequest_loop_wire. Qed.

(** The probe never returns the empty list. *)
Lemma detectProtocols_not_empty url e :
  forall protocols e',
    detectProtocols url e = (Ok protocols, e') -> protocols <> [].
Proof.
  intros protocols e' H. unfold Engine.detectProtocols, new_Client, request in H.
  destruct (Client_check url); [by simplify_eq|]. simpl in H.
  destruct (answer _) as [?|? hdr ? ?]; [by simplify_eq|].
  simplify_eq. destruct (advertises_h3 hdr); vm_compute Set_add; done.
Qed.

(** X6. Whatever the configuration and the target, the protocol list
    [main] proceeds with is not empty; on it a dispatch never falls
    through the loop: it returns a response or throws. *)
Theorem main_protocols_not_empty config url e protocols e' :
  main_protocols config url e = (Ok protocols, e') ->
  protocols <> [] /\
  forall path b e0, (sendRequest url path protocols b e0).1.1 <> Ok None.
Proof.
  intros H.
  assert (Hne : protocols <> []).
  { unfold Engine.main_protocols, bind, ret in H.
    destruct (truthy (protocol config)).
    - destruct (protocol config); simpl in H; simplify_eq.
      by case_decide as Hl; [|destruct (parse_override _)].
    - destruct (detectProtocols url e) as [[ps|err] e1] eqn:Hd;
        simplify_eq.
      by case_decide as Hl; [|destruct ps]. }
  split; [done|]. intros path b e0.
  by apply sendRequest_loop_settles.
Qed.

End DispatchFacts.

Section WorkerFacts.

Import CircuitBreaker Engine Tally.

Variable Client_check : string -> option Error.
Variable network : list Request -> Reply.
Variable sigint : option Z.

Abbreviation sendRequest := (sendRequest Client_check network).
Abbreviation runWorker_round := (runWorker_round Client_check network).
Abbreviation runWorker := (runWorker Client_check network sigint).

Implicit Types (b : CircuitBreaker.t) (e : Env) (proto : Val).
Implicit Types (protocols : list Val) (url path : string) (w : World).

Local Open Scope list_scope.

Lemma while_loop_ext {S : Type} fuel (continue : S -> bool)
    (round round' : S -> S) :
  (forall s, round s = round' s) ->
  forall s, while_loop fuel continue round s =
            while_loop fuel continue round' s.
Proof.
  intros Hext. induction fuel as [|fuel IH]; intros s; [done|].
  simpl. destruct (continue s); [|done]. by rewrite Hext, IH.
Qed.

Lemma Date_now_sleep ms e : Date_now (sleep ms e) = Date_now e + ms.
Proof. unfold Date_now, sleep, advance. simpl. by rewrite Z.div_add. Qed.

(** After a dispatch that succeeded the breaker is not OPEN, so the test
    of line 528 fails whatever the flag. *)
Lemma runWorker_round_flag flag flag' config url path protocols w :
  protocols <> [] ->
  runWorker_round (with_adaptiveDelay flag config) url path protocols w =
  runWorker_round (with_adaptiveDelay flag' config) url path protocols w.
Proof.
  intros Hne. unfold Engine.runWorker_round.
  destruct (sendRequest url path protocols w.1 w.2)
    as [[[r|err] b'] e'] eqn:H; [|done].
  destruct r as [res|].
  - apply sendRequest_loop_ok_proto in H as (_ & _ & Hst).
    unfold getState. rewrite bool_decide_eq_false_2 by done.
    by rewrite !andb_false_r.
  - exfalso.
    apply (sendRequest_loop_settles Client_check network url path
             protocols protocols w.1 w.2); [done | done |].
    unfold Engine.sendRequest in H. by rewrite H.
Qed.

(** X7. For a worker running alone over a protocol list that is not
    empty, the [--adaptive-delay] flag changes nothing: the 1 s pause of
    lines 528-530 is taken only when the breaker is OPEN right after a
    dispatch that succeeded, and such a dispatch never leaves it OPEN. *)
Theorem adaptive_delay_has_no_effect fuel config url path protocols
    startTime durationMs w :
  protocols <> [] ->
  runWorker fuel (with_adaptiveDelay true config) url path protocols
    startTime durationMs w =
  runWorker fuel (with_adaptiveDelay false config) url path protocols
    startTime durationMs w.
Proof.
  intros Hne. unfold Engine.runWorker. apply while_loop_ext.
  intros w0. by apply runWorker_round_flag.
Qed.

(** One turn of a worker while the breaker rejects. *)
Lemma runWorker_round_rejected config url path protocols b e :
  protocols <> [] ->
  state b = OPEN -> Date_now e < nextAttempt b ->
  runWorker_round config url path protocols (b, e) =
    (b, sleep 2000 (with_stats (record_failure circuit_open_error) e)).
Proof.
  intros Hne Hs Hlt. unfold Engine.runWorker_round. simpl.
  unfold Engine.sendRequest.
  rewrite sendRequest_loop_rejected by done.
  unfold getState. by rewrite bool_decide_eq_true_2.
Qed.

(** X8. While the breaker is OPEN and [nextAttempt] lies ahead, each turn
    of a worker sends nothing and creates no client; it counts one failed
    request under the circuit-open key and waits 2 s.  So [k] turns in a
    row, all begun before [nextAttempt], add [k] to [failed] and 2000 k
    ms to the clock and leave breaker, wire and handles as they were. *)
Theorem worker_backs_off_while_open config url path protocols b e k :
  protocols <> [] ->
  state b = OPEN ->
  Date_now e + 2000 * (Z.of_nat k - 1) < nextAttempt b ->
  let w := Nat.iter k (runWorker_round config url path protocols) (b, e) in
  w.1 = b /\
  wire w.2 = wire e /\ live w.2 = live e /\ created w.2 = created e /\
  success (stats w.2) = success (stats e) /\
  failed (stats w.2) = failed (stats e) + Z.of_nat k /\
  default 0 (errors (stats w.2) !! "Circuit OPEN - Waiti") =
    default 0 (errors (stats e) !! "Circuit OPEN - Waiti") + Z.of_nat k /\
  Date_now w.2 = Date_now e + 2000 * Z.of_nat k.
Proof.
  intros Hne Hs. induction k as [|k IH]; intros Hlt w.
  - subst w. simpl. split_and!; try done; lia.
  - subst w. rewrite Nat.iter_succ.
    destruct IH as (Hb & Hw & Hl & Hc & Hsu & Hf & Herr & Hnow); [lia|].
    destruct (Nat.iter k (runWorker_round config url path protocols) (b, e))
      as [bk ek]. cbn [fst snd] in *. subst bk.
    rewrite runWorker_round_rejected by (try done; lia).
    simpl. rewrite Date_now_sleep. simpl.
    change (Date_now (with_stats (record_failure circuit_open_error) ek))
      with (Date_now ek).
    split_and!; try done; try lia.
    change (error_key circuit_open_error) with "Circuit OPEN - Waiti".
    unfold bump. rewrite lookup_insert_eq. simpl. lia.
Qed.

(** One turn of a worker with a single protocol, a closed breaker and a
    target that rejects the request. *)
Lemma runWorker_round_dead_target config url path proto b e :
  Client_check url = None ->
  (forall sent, exists err, answer (network sent) = Rejected err) ->
  state b = CLOSED ->
  exists b' e',
    runWorker_round config url path [proto] (b, e) = (b', e') /\
    failed (stats e') = failed (stats e) + 1 /\
    length (wire e') = S (length (wire e)) /\
    failCount b' = failCount b + 1 /\
    threshold b' = threshold b /\ timeout b' = timeout b /\
    (failCount b + 1 < threshold b -> state b' = CLOSED) /\
    (threshold b <= failCount b + 1 ->
     state b' = OPEN /\ nextAttempt b' = Date_now e' - 2000 + timeout b).
Proof.
  intros Hck Hrej Hs.
  pose proof (attempt_cases Client_check network url path proto e) as Hc.
  rewrite Hck in Hc. cbv zeta in Hc.
  destruct (Hrej (wire (send (Fetch (created e) proto path)
              (open_handle (UndiciClient (pipelining_of proto)) e).2)))
    as [err Herr].
  rewrite Herr in Hc.
  remember (advance _ (send _ (open_handle _ e).2)) as e3 eqn:He3.
  assert (Hst3 : stats e3 = stats e) by (by subst e3).
  assert (Hw3 : length (wire e3) = S (length (wire e))) by (by subst e3).
  assert (Hsr : sendRequest url path [proto] b e =
                (Throw err, on_failure (Date_now e3) b,
                 with_stats (record_failure err) e3)).
  { unfold Engine.sendRequest. cbn [Engine.sendRequest_loop].
    rewrite execute_not_open by (rewrite Hs; done).
    rewrite Hc. by rewrite decide_True. }
  assert (Hof : on_failure (Date_now e3) b =
                if failCount b + 1 >=? threshold b
                then set_nextAttempt (Date_now e3 + timeout b)
                       (set_state OPEN (set_failCount (failCount b + 1) b))
                else set_failCount (failCount b + 1) b).
  { unfold on_failure. simpl. by rewrite Hs, decide_False. }
  unfold Engine.runWorker_round. cbn [fst snd]. rewrite Hsr, Hof.
  unfold getState.
  destruct (Z.geb_spec (failCount b + 1) (threshold b)).
  - rewrite bool_decide_eq_true_2 by done.
    eexists _, _. split; [reflexivity|]. simpl. rewrite Hst3.
    split_and!; try done; try lia.
    intros _. split; [done|]. rewrite Date_now_sleep.
    change (Date_now (with_stats (record_failure err) e3))
      with (Date_now e3). lia.
  - rewrite bool_decide_eq_false_2 by (simpl; rewrite Hs; done).
    eexists _, _. split; [reflexivity|]. simpl. rewrite Hst3, Hs.
    split_and!; try done; lia.
Qed.

(** X9. A worker with a single protocol against a target that rejects
    every request: a new breaker stays CLOSED, counting one failure per
    turn, for [threshold - 1] turns; the turn number [threshold] opens it
    and the worker waits 2 s, so that [nextAttempt] lies [timeout - 2000]
    ms ahead; each turn has sent one request and recorded one failed
    request. *)
Theorem worker_opens_breaker_on_dead_target config url path proto
    (th to h : Z) e :
  1 <= th ->
  Client_check url = None ->
  (forall sent, exists err, answer (network sent) = Rejected err) ->
  let turns k :=
    Nat.iter k (runWorker_round config url path [proto]) (new th to h, e) in
  (forall k, Z.of_nat k < th ->
     state (turns k).1 = CLOSED /\ failCount (turns k).1 = Z.of_nat k) /\
  (forall k, Z.of_nat k <= th ->
     failed (stats (turns k).2) = failed (stats e) + Z.of_nat k /\
     length (wire (turns k).2) = (length (wire e) + k)%nat) /\
  state (turns (Z.to_nat th)).1 = OPEN /\
  nextAttempt (turns (Z.to_nat th)).1 =
    Date_now (turns (Z.to_nat th)).2 - 2000 + to.
Proof.
  intros Hth Hck Hrej turns.
  assert (Hinv : forall k, Z.of_nat k <= th ->
    failed (stats (turns k).2) = failed (stats e) + Z.of_nat k /\
    length (wire (turns k).2) = (length (wire e) + k)%nat /\
    failCount (turns k).1 = Z.of_nat k /\
    threshold (turns k).1 = th /\ timeout (turns k).1 = to /\
    (Z.of_nat k < th -> state (turns k).1 = CLOSED) /\
    (Z.of_nat k = th ->
     state (turns k).1 = OPEN /\
     nextAttempt (turns k).1 = Date_now (turns k).2 - 2000 + to)).
  { induction k as [|k IH]; intros Hk.
    - unfold turns. simpl. split_and!; try done; try lia.
    - destruct IH as (Hf & Hw & Hfc & Htt & Hto & Hcl & _); [lia|].
      unfold turns in *. rewrite Nat.iter_succ.
      destruct (Nat.iter k (runWorker_round config url path [proto])
                  (new th to h, e)) as [bk ek]. cbn [fst snd] in *.
      destruct (runWorker_round_dead_target config url path proto bk ek)
        as (b' & e' & Hrun & Hf' & Hw' & Hfc' & Htt' & Hto' & Hcl' & Hop');
        [done | done | apply Hcl; lia |].
      rewrite Hrun. simpl.
      split_and!; try lia.
      + intros Hlt. apply Hcl'. lia.
      + intros Heq. rewrite <- Hto. apply Hop'. lia. }
  split_and!.
  - intros k Hk. destruct (Hinv k) as (_ & _ & ? & _ & _ & Hcl & _); [lia|].
    split; [by apply Hcl | done].
  - intros k Hk. destruct (Hinv k) as (? & ? & _); done.
  - destruct (Hinv (Z.to_nat th)) as (_ & _ & _ & _ & _ & _ & Hop); [lia|].
    apply Hop. lia.
  - destruct (Hinv (Z.to_nat th)) as (_ & _ & _ & _ & _ & _ & Hop); [lia|].
    apply Hop. lia.
Qed.

End WorkerFacts.

(** ** The run as a whole: what it keeps *)

Section RunInvariants.

Import CircuitBreaker Engine Tally.

Variable Client_check : string -> option Error.
Variable network : list Request -> Reply.
Variable h2net : list Request -> H2Reply.
Variable sigint : option Z.

Abbreviation sendRequest := (sendRequest Client_check network).
Abbreviation detectProtocols := (detectProtocols Client_check network).
Abbreviation runWorker_round := (runWorker_round Client_check network).
Abbreviation rapidResetAttack_round := (rapidResetAttack_round h2net).
Abbreviation rapidResetAttack := (rapidResetAttack h2net).
Abbreviation run_op := (run_op Client_check network h2net).
Abbreviation main := (main Client_check network h2net sigint).

Implicit Types (b : CircuitBreaker.t) (e : Env) (s : Stats).
Implicit Types (url path : string) (w : World).

Local Open Scope list_scope.

Lemma fresh_handle_unused e : handles_fresh e -> live e !! created e = None.
Proof.
  intros Hf. destruct (live e !! created e) eqn:Hl; [|done].
  specialize (Hf (created e)). rewrite Hl in Hf.
  ospecialize (Hf _); [by eexists|]. lia.
Qed.

Lemma iter_attack_sent_handles r n e :
  let e' := Nat.iter n (fun e => with_stats attack_sent (send r e)) e in
  live e' = live e /\ created e' = created e /\ clock e' = clock e.
Proof. induction n as [|n IH]; [done|]. simpl. exact IH. Qed.

(** One turn of the attack driver gives back the handle it took. *)
Lemma rapidResetAttack_round_handles url e :
  handles_fresh e ->
  live (rapidResetAttack_round url e) = live e /\
  handles_fresh (rapidResetAttack_round url e).
Proof.
  intros Hf. pose proof (fresh_handle_unused e Hf) as Hnone.
  assert (Hstep : forall e', live e' = live e ->
            created e' = S (created e) -> handles_fresh e').
  { intros e' Hl Hc k Hk. rewrite Hl in Hk. apply Hf in Hk. lia. }
  assert (Hclose : forall f e4,
            live e4 = <[created e := Http2Session]> (live e) ->
            created e4 = S (created e) ->
            live (release (created e) (with_stats f e4)) = live e /\
            handles_fresh (release (created e) (with_stats f e4))).
  { intros f e4 Hl Hc.
    assert (Hlive : live (release (created e) (with_stats f e4)) = live e).
    { cbn [release with_stats live]. rewrite Hl.
      by rewrite delete_insert_id. }
    split; [done|]. by apply Hstep. }
  unfold Engine.rapidResetAttack_round.
  destruct (connect _) as [| |accepted events].
  - split; [done|]. intros k Hk. by apply Hf.
  - unfold open_handle. apply Hclose; done.
  - unfold open_handle. cbv zeta. cbn [fst snd]. apply Hclose.
    + destruct (accepted <? 50)%nat;
        cbn [with_stats sleep advance live];
        rewrite (proj1 (iter_attack_sent_handles _ _ _)); done.
    + destruct (accepted <? 50)%nat;
        cbn [with_stats sleep advance created];
        rewrite (proj1 (proj2 (iter_attack_sent_handles _ _ _))); done.
Qed.

(** X10. The attack driver never leaves a session behind: after any
    number of turns of [rapidResetAttack], whether the connection was
    refused, timed out, broke while streams were opened or served all 50
    streams, the table of open handles is what it was before the call. *)
Theorem rapidResetAttack_releases_every_session fuel url duration e :
  handles_fresh e ->
  live (rapidResetAttack fuel url duration e) = live e /\
  handles_fresh (rapidResetAttack fuel url duration e).
Proof.
  unfold Engine.rapidResetAttack, rapidResetAttack_loop.
  generalize (Date_now e) as startTime. intros startTime.
  revert e. induction fuel as [|fuel IH]; intros e Hf; [done|].
  simpl. destruct (_ <? _); [|done].
  destruct (rapidResetAttack_round_handles url e Hf) as [Hl Hf'].
  destruct (IH _ Hf') as [Hl' Hf'']. split; [congruence | done].
Qed.

Lemma total_bump `{Countable K} (k : K) (h : gmap K Z) :
  total (bump k h) = total h + 1.
Proof.
  unfold total, bump.
  assert (Hcomm : forall (m : gmap K Z) (j1 j2 : K) (z1 z2 y : Z),
            j1 <> j2 -> m !! j1 = Some z1 -> m !! j2 = Some z2 ->
            z1 + (z2 + y) = z2 + (z1 + y)) by (intros; lia).
  destruct (h !! k) as [v|] eqn:Hk; simpl.
  - rewrite <- insert_delete_eq.
    rewrite map_fold_insert_L;
      [| apply Hcomm | by rewrite lookup_delete_eq].
    rewrite (map_fold_delete_L _ _ k v h); [lia | apply Hcomm | done].
  - rewrite map_fold_insert_L; [lia | apply Hcomm | done].
Qed.

Lemma balanced_initial : balanced initial_stats.
Proof. unfold balanced. simpl. unfold total. by rewrite !map_fold_empty. Qed.

Lemma balanced_record_success sc latency proto s :
  balanced s -> balanced (record_success sc latency proto s).
Proof.
  unfold balanced. simpl. intros (? & ? & ? & ?).
  rewrite !total_bump. split_and!; try done; lia.
Qed.

Lemma balanced_record_failure err s :
  balanced s -> balanced (record_failure err s).
Proof.
  unfold balanced. simpl. intros (? & ? & ? & ?).
  rewrite !total_bump. split_and!; try done; lia.
Qed.

Lemma balanced_stream_event ev s : balanced s -> balanced (stream_event ev s).
Proof.
  unfold balanced. destruct ev; simpl; intros (? & ? & ? & ?);
    rewrite ?total_bump; split_and!; try done; lia.
Qed.

Lemma balanced_stream_events events : forall s,
  balanced s ->
  balanced (fold_left (fun s ev => stream_event ev s) events s).
Proof.
  induction events as [|ev events IH]; intros s Hs; [done|].
  simpl. apply IH. by apply balanced_stream_event.
Qed.

Lemma balanced_iter_attack_sent r n e :
  balanced (stats e) ->
  balanced
    (stats (Nat.iter n (fun e => with_stats attack_sent (send r e)) e)).
Proof. intros Hb. induction n as [|n IH]; [done|]. simpl. exact IH. Qed.

Lemma balanced_rapidResetAttack_round url e :
  balanced (stats e) -> balanced (stats (rapidResetAttack_round url e)).
Proof.
  intros Hb. unfold Engine.rapidResetAttack_round.
  destruct (connect _) as [| |accepted events]; try exact Hb.
  unfold open_handle. cbv zeta. cbn [fst snd release with_stats stats].
  apply balanced_stream_events.
  destruct (accepted <? 50)%nat; cbn [with_stats sleep advance stats].
  - apply (balanced_stream_event StreamError).
    apply balanced_iter_attack_sent. exact Hb.
  - apply balanced_iter_attack_sent. exact Hb.
Qed.

Lemma balanced_sendRequest url path protocols b e :
  balanced (stats e) ->
  balanced (stats (sendRequest url path protocols b e).2).
Proof.
  intros Hb.
  destruct (sendRequest_stats Client_check network url path protocols b e)
    as [->|[(sc & latency & proto & ->)|(err & ->)]].
  - done.
  - by apply balanced_record_success.
  - by apply balanced_record_failure.
Qed.

(** A turn of a worker changes the statistics by its dispatch alone. *)
Lemma runWorker_round_stats config url path protocols w :
  stats (runWorker_round config url path protocols w).2 =
  stats (sendRequest url path protocols w.1 w.2).2.
Proof.
  unfold Engine.runWorker_round.
  destruct (sendRequest url path protocols w.1 w.2) as [[[r|err] b'] e'];
    simpl; by repeat case_match.
Qed.

Lemma balanced_run_op w w' :
  run_op w w' -> balanced (stats w.2) -> balanced (stats w'.2).
Proof.
  destruct 1 as [url path protocols b e | config url path protocols w
                | url b e | ms b e]; simpl; intros Hb.
  - by apply balanced_sendRequest.
  - rewrite runWorker_round_stats. by apply balanced_sendRequest.
  - by apply balanced_rapidResetAttack_round.
  - done.
Qed.

(** X11. Each histogram of the statistics sums to the counter it breaks
    down, all along a run: the counts of [statusCodes] and of [protocols]
    both sum to [success], those of [errors] to [failed], those of
    [attackStatus] to [attackReceived].  This holds of the statistics
    [main] ends with, in either mode. *)
Theorem histograms_sum_to_counters w w' :
  balanced (stats w.2) ->
  rtc run_op w w' ->
  balanced (stats w'.2) /\
  (forall config url path fuel e protocols w0,
     main config url path fuel e = (Ok protocols, w0) ->
     total (statusCodes (stats w0.2)) = success (stats w0.2) /\
     total (Engine.protocols (stats w0.2)) = success (stats w0.2) /\
     total (errors (stats w0.2)) = failed (stats w0.2) /\
     total (attackStatus (stats w0.2)) = attackReceived (stats w0.2)).
Proof.
  assert (Hrtc : forall w1 w2, rtc run_op w1 w2 ->
            balanced (stats w1.2) -> balanced (stats w2.2)).
  { induction 1 as [|w1 w2 w3 Hstep _ IH]; [done|].
    intros Hb. apply IH. by eapply balanced_run_op. }
  intros Hb Hrun. split; [by eapply Hrtc|].
  intros config url path fuel e protocols w0 Hmain.
  unfold Engine.main in Hmain.
  destruct (main_protocols _ _ _ _ e) as [[ps|err] e1]; [|done].
  injection Hmain as -> <-.
  apply (Hrtc _ _ (main_workload_ops Client_check network h2net sigint
                     config url path protocols fuel _)).
  simpl. apply balanced_initial.
Qed.

Lemma streams_sent_app sent sent' :
  streams_sent (sent ++ sent') = streams_sent sent + streams_sent sent'.
Proof.
  induction sent as [|r sent IH]; [done|].
  destruct r; simpl; rewrite IH; lia.
Qed.

Lemma streams_sent_fetches path (protocols : list Val) sent :
  Forall (fun r => exists client proto,
            r = Fetch client proto path /\ proto ∈ protocols) sent ->
  streams_sent sent = 0.
Proof.
  induction 1 as [|r sent (c & p & -> & _) _ IH]; [done|]. exact IH.
Qed.

Lemma streams_counted_sendRequest url path protocols b e :
  attackSent (stats e) = streams_sent (wire e) ->
  attackSent (stats (sendRequest url path protocols b e).2) =
  streams_sent (wire (sendRequest url path protocols b e).2).
Proof.
  intros Hinv.
  destruct (sendRequest_loop_wire Client_check network url path protocols
              protocols b e) as (sent & Hw & _ & Hf).
  unfold Engine.sendRequest. rewrite Hw, streams_sent_app.
  rewrite (streams_sent_fetches _ _ _ Hf).
  destruct (sendRequest_stats Client_check network url path protocols b e)
    as [Hs|[(sc & latency & proto & Hs)|(err & Hs)]];
    unfold Engine.sendRequest in Hs; rewrite Hs; simpl; lia.
Qed.

Lemma runWorker_round_wire config url path protocols w :
  wire (runWorker_round config url path protocols w).2 =
  wire (sendRequest url path protocols w.1 w.2).2.
Proof.
  unfold Engine.runWorker_round.
  destruct (sendRequest url path protocols w.1 w.2) as [[[r|err] b'] e'];
    simpl; by repeat case_match.
Qed.

Lemma iter_attack_sent_streams client n e :
  let e' := Nat.iter n (fun e => with_stats attack_sent
                                   (send (Stream client) e)) e in
  attackSent (stats e') - streams_sent (wire e') =
  attackSent (stats e) - streams_sent (wire e).
Proof. induction n as [|n IH]; [done|]. simpl in *. lia. Qed.

Lemma fold_stream_event_attackSent events : forall s,
  attackSent (fold_left (fun s ev => stream_event ev s) events s) =
  attackSent s.
Proof.
  induction events as [|ev events IH]; intros s; [done|].
  simpl. rewrite IH. by destruct ev.
Qed.

Lemma streams_counted_rapidResetAttack_round url e :
  attackSent (stats e) = streams_sent (wire e) ->
  attackSent (stats (rapidResetAttack_round url e)) =
  streams_sent (wire (rapidResetAttack_round url e)).
Proof.
  intros Hinv. unfold Engine.rapidResetAttack_round.
  destruct (connect _) as [| |accepted events]; try exact Hinv.
  unfold open_handle. cbv zeta.
  cbn [fst snd release with_stats stats wire].
  rewrite fold_stream_event_attackSent.
  match goal with
  | |- context [Nat.iter ?n ?f ?x] =>
      pose proof (iter_attack_sent_streams (created e) n x) as Hit;
      set (e3 := Nat.iter n f x) in *
  end.
  cbv zeta in Hit. cbn [advance send stats wire streams_sent] in Hit.
  destruct (accepted <? 50)%nat;
    cbn [with_stats sleep advance stats wire attack_error attackSent]; lia.
Qed.

(** X12. Every stream the attack driver opens is counted, and nothing
    else is: all along a run that starts with [attackSent] equal to the
    number of streams on the wire, the two stay equal. *)
Theorem attackSent_counts_streams w w' :
  attackSent (stats w.2) = streams_sent (wire w.2) ->
  rtc run_op w w' ->
  attackSent (stats w'.2) = streams_sent (wire w'.2).
Proof.
  intros Hinv Hrun. induction Hrun as [|w1 w2 w3 Hstep _ IH]; [done|].
  apply IH. clear IH.
  destruct Hstep as [url path protocols b e | config url path protocols w
                    | url b e | ms b e]; simpl in *.
  - by apply streams_counted_sendRequest.
  - assert (Ha : attackSent (stats (runWorker_round config url path
                                      protocols w).2) =
                 attackSent (stats (sendRequest url path protocols
                                      w.1 w.2).2))
      by (by rewrite runWorker_round_stats).
    rewrite Ha, runWorker_round_wire. by apply streams_counted_sendRequest.
  - by apply streams_counted_rapidResetAttack_round.
  - done.
Qed.

(** X13. The probe sends at most one request, a HEAD, and leaves the
    statistics alone.  When the request is answered the client it opened
    is closed; when the request is rejected that client is left open
    (the [catch] block only adds h1.1); when the constructor throws
    nothing was opened and the environment is untouched. *)
Theorem detectProtocols_resources url e :
  let e' := (detectProtocols url e).2 in
  stats e' = stats e /\
  match Client_check url with
  | Some _ => e' = e
  | None =>
      wire e' = Head (created e) :: wire e /\
      created e' = S (created e) /\
      match answer (network (Head (created e) :: wire e)) with
      | Rejected _ => live e' = <[created e := UndiciClient None]> (live e)
      | Responded _ _ _ _ => live e' !! created e = None
      end
  end.
Proof.
  unfold Engine.detectProtocols, new_Client, request.
  destruct (Client_check url); [done|]. simpl.
  destruct (answer _); simpl; split_and!; try done.
  by rewrite lookup_delete_eq.
Qed.

End RunInvariants.

(** ** The command line *)

Section CliFacts.

Import Cli.

Local Open Scope list_scope.

Implicit Types (args : list string) (c : Options).

Lemma value_flag_not_help arg :
  arg = "-h" \/ arg = "--help" -> value_flag arg = None.
Proof. intros [-> | ->]; reflexivity. Qed.

Lemma value_flag_url arg :
  value_flag arg = Some FUrl <-> arg = "-u" \/ arg = "--url".
Proof.
  unfold value_flag. repeat case_decide; split; intros Hf;
    try done; tauto.
Qed.

(** The loop exits, with status 0, exactly when it reads a help option. *)
Lemma parseArgs_loop_exit fuel : forall args c,
  (length args <= fuel)%nat ->
  (forall status, parseArgs_loop fuel args c = Exit status -> status = 0) /\
  (parseArgs_loop fuel args c = Exit 0 <->
   at_option fuel "-h" args \/ at_option fuel "--help" args).
Proof.
  induction fuel as [|fuel IH]; intros args c Hlen.
  - simpl. split; [done|]. split; [done | tauto].
  - destruct args as [|arg rest].
    { simpl. split; [done|]. split; [done | tauto]. }
    simpl in Hlen. cbn [parseArgs_loop at_option].
    destruct (value_flag arg) as [f|] eqn:Hvf.
    + assert (Hnh : arg <> "-h" /\ arg <> "--help").
      { split; intros ->; discriminate Hvf. }
      destruct (IH (tail rest) (set_option f (head rest) c)) as [H1 H2].
      { destruct rest; simpl in *; lia. }
      split; [exact H1|]. rewrite H2. tauto.
    + case_decide as Had.
      * subst arg.
        destruct (IH rest (mkOptions (url c) (time c) (conc c) (attack c)
                             (protocol c) true)) as [H1 H2]; [lia|].
        split; [exact H1|]. rewrite H2.
        split; [tauto|]. intros [[?|?]|[?|?]]; try done; tauto.
      * case_decide as Hh.
        -- split; [intros ? [= <-]; done|]. split; [tauto | done].
        -- apply Decidable.not_or in Hh as [? ?].
           destruct (IH rest c) as [H1 H2]; [lia|].
           split; [exact H1|]. rewrite H2. tauto.
Qed.

(** The URL the loop ends with is the one it started with, or an
    argument, or [undefined] when the option came last. *)
Lemma parseArgs_loop_url fuel : forall args c c',
  parseArgs_loop fuel args c = Config c' ->
  (~ at_option fuel "-u" args -> ~ at_option fuel "--url" args ->
   url c' = url c) /\
  (url c' = url c \/ url c' = VUndefined \/
   exists u, url c' = VStr u /\ u ∈ args).
Proof.
  induction fuel as [|fuel IH]; intros args c c' H.
  - simpl in H. simplify_eq. split; [done | by left].
  - destruct args as [|arg rest].
    { simpl in H. simplify_eq. split; [done | by left]. }
    cbn [parseArgs_loop at_option] in *.
    destruct (value_flag arg) as [f|] eqn:Hvf.
    + destruct (IH _ _ _ H) as [Hkeep Hcase].
      assert (Hin : forall u, u ∈ tail rest -> u ∈ arg :: rest).
      { intros u Hu. right. destruct rest; [done | by right]. }
      split.
      * intros Hu Hurl. rewrite Hkeep by tauto.
        destruct f; try done.
        apply value_flag_url in Hvf. tauto.
      * destruct Hcase as [->|[->|(u & -> & Hu)]].
        -- destruct f; simpl; try by left.
           destruct rest as [|v rest']; simpl; [right; by left|].
           right; right. exists v. split; [done|]. right; left.
        -- right; by left.
        -- right; right. exists u. split; [done | by apply Hin].
    + case_decide as Had; [|case_decide as Hhelp; [done|]].
      * destruct (IH _ _ _ H) as [Hkeep Hcase]. split.
        -- intros Hu Hurl. rewrite Hkeep by tauto. done.
        -- destruct Hcase as [->|[->|(u & -> & Hu)]];
             [by left | right; by left |].
           right; right. exists u. split; [done | by right].
      * destruct (IH _ _ _ H) as [Hkeep Hcase]. split.
        -- intros Hu Hurl. rewrite Hkeep by tauto. done.
        -- destruct Hcase as [->|[->|(u & -> & Hu)]];
             [by left | right; by left |].
           right; right. exists u. split; [done | by right].
Qed.

(** X14. How [parseArgs] ends.  It exits with status 0 exactly when a
    help option stands where an option name is read (not where the value
    of the option before it is read); it exits with no other status than
    0 and 1; when it returns, the URL is one of the arguments and is not
    empty; and without a [-u] or [--url] option it never returns: the URL
    is required. *)
Theorem parseArgs_outcomes args :
  (parseArgs args = Exit 0 <->
   at_option (length args) "-h" args \/
   at_option (length args) "--help" args) /\
  (forall status, parseArgs args = Exit status -> status = 0 \/ status = 1) /\
  (forall c, parseArgs args = Config c ->
     exists u, url c = VStr u /\ u <> "" /\ u ∈ args) /\
  (~ at_option (length args) "-u" args ->
   ~ at_option (length args) "--url" args ->
   exists status, parseArgs args = Exit status).
Proof.
  unfold parseArgs.
  destruct (parseArgs_loop_exit (length args) args defaults) as [Hst Hex];
    [done|].
  destruct (parseArgs_loop (length args) args defaults) as [c|status]
    eqn:Hloop.
  - apply parseArgs_loop_url in Hloop as [Hkeep Hurl].
    split_and!.
    + rewrite <- Hex. destruct (truthy (url c)); split; done.
    + intros status. destruct (truthy (url c)); [done|].
      intros [= <-]. by right.
    + intros c0. destruct (truthy (url c)) eqn:Ht; [|done].
      intros [= <-]. simpl in Hurl.
      destruct Hurl as [Hu|[Hu|(u & Hu & Hin)]];
        try (rewrite Hu in Ht; done).
      exists u. split_and!; try done.
      intros ->. by rewrite Hu in Ht.
    + intros Hu Hurl'. rewrite (Hkeep Hu Hurl'). simpl. by exists 1.
  - pose proof (Hst status eq_refl) as ->. split_and!.
    + by rewrite <- Hex.
    + intros status [= <-]. by left.
    + done.
    + intros _ _. by exists 0.
Qed.

End CliFacts.

Section ParseIntFacts.

Import Cli.

(** Text after a run of digits does not change what the run reads as. *)
Lemma digits_app_nondigit s : forall t seen acc,
  (match t with
   | String ch _ => is_digit ch = false
   | EmptyString => True
   end) ->
  (forall ch, In ch (list_ascii_of_string s) -> is_digit ch = true) ->
  s <> "" ->
  digits (String.append s t) seen acc = digits s seen acc.
Proof.
  induction s as [|c s IH]; intros t seen acc Ht Hs Hne; [done|].
  simpl in *. rewrite (Hs c) by (by left).
  destruct s as [|c' s'].
  - destruct t as [|ct t']; [done|]. simpl. by rewrite Ht.
  - apply IH; [done | intros; apply Hs; by right | done].
Qed.

(** [parseInt] reads the leading numeral and ignores what follows it. *)
Lemma parseInt_leading_numeral s t :
  s <> "" ->
  (forall ch, In ch (list_ascii_of_string s) -> is_digit ch = true) ->
  (match t with
   | String ch _ => is_digit ch = false
   | EmptyString => True
   end) ->
  parseInt (String.append s t) = parseInt s /\
  parseInt (String.append "-" (String.append s t)) = Z.opp <$> parseInt s /\
  (exists n, parseInt s = Some n /\ 0 <= n) /\
  (match t with
   | String "-" _ | String "+" _ => True
   | String ch _ => Str.is_whitespace ch = false -> parseInt t = None
   | EmptyString => parseInt t = None
   end).
Proof.
  intros Hne Hs Ht.
  assert (Hfirst : exists c s', s = String c s' /\ is_digit c = true).
  { destruct s as [|c s']; [done|]. exists c, s'. split; [done|].
    apply Hs. by left. }
  destruct Hfirst as (c & s' & -> & Hc).
  assert (Hws : Str.is_whitespace c = false).
  { revert Hc. unfold is_digit, Str.is_whitespace.
    generalize (nat_of_ascii c) as n. intros n Hn.
    apply andb_true_iff in Hn as [H1 H2].
    apply Nat.leb_le in H1, H2.
    repeat (apply orb_false_iff; split);
      [apply andb_false_iff; right; apply Nat.leb_gt; lia
      | apply Nat.eqb_neq; lia | apply Nat.eqb_neq; lia]. }
  assert (Hsign : c <> "-"%char /\ c <> "+"%char).
  { split; intros ->; vm_compute in Hc; done. }
  assert (Hparse : forall u, parseInt (String c u) = digits (String c u) false 0).
  { intros u. unfold parseInt. cbn [Str.trimStart]. rewrite Hws.
    destruct Hsign as [Hm Hp].
    destruct c as [[] [] [] [] [] [] [] []]; try done. }
  split_and!.
  - change (String.append (String c s') t) with (String c (String.append s' t)).
    rewrite !Hparse.
    change (String c (String.append s' t)) with (String.append (String c s') t).
    by apply digits_app_nondigit.
  - change (String.append "-" ?x) with (String "-" x).
    unfold parseInt at 1. cbn [Str.trimStart].
    change (Str.is_whitespace "-") with false. cbv iota.
    rewrite Hparse. f_equal. by apply digits_app_nondigit.
  - rewrite Hparse.
    assert (Hd : forall u seen acc, 0 <= acc ->
              (forall c0, In c0 (list_ascii_of_string u) ->
                          is_digit c0 = true) ->
              seen = true \/ u <> "" ->
              exists n, digits u seen acc = Some n /\ 0 <= n).
    { induction u as [|c0 u IH]; intros seen acc Hacc Hu Hor.
      - destruct Hor as [->|?]; [|done]. by exists acc.
      - simpl. rewrite (Hu c0) by (by left).
        apply IH; [lia | intros; apply Hu; by right | by left]. }
    apply Hd; [done | exact Hs | by right].
  - destruct t as [|ct t']; [done|].
    destruct (decide (ct = "-"%char)) as [->|Hm]; [done|].
    destruct (decide (ct = "+"%char)) as [->|Hp]; [done|].
    assert (Hgoal : Str.is_whitespace ct = false ->
                    parseInt (String ct t') = None).
    { intros Hw. unfold parseInt. cbn [Str.trimStart]. rewrite Hw.
      assert (Hdg : digits (String ct t') false 0 = None)
        by (simpl; by rewrite Ht).
      destruct ct as [[] [] [] [] [] [] [] []]; try done. }
    destruct ct as [[] [] [] [] [] [] [] []]; try done; exact Hgoal.
Qed.

Local Open Scope list_scope.

Lemma value_flag_time arg :
  value_flag arg = Some FTime <-> arg = "-t" \/ arg = "--time".
Proof.
  unfold value_flag. split.
  - repeat case_decide; intros Hf; done.
  - intros [-> | ->]; reflexivity.
Qed.

(** Whether an argument stands at an option does not depend on the bound
    of the loop, once it covers the arguments. *)
Lemma at_option_fuel name : forall fuel fuel' (args : list string),
  (length args <= fuel)%nat -> (length args <= fuel')%nat ->
  at_option fuel name args <-> at_option fuel' name args.
Proof.
  induction fuel as [|fuel IH]; intros fuel' args Hl Hl'.
  - destruct args; [|simpl in Hl; lia]. destruct fuel'; simpl; tauto.
  - destruct args as [|arg rest]; [destruct fuel'; simpl; tauto|].
    destruct fuel' as [|fuel']; [simpl in Hl'; lia|].
    simpl in Hl, Hl'. cbn [at_option].
    destruct (value_flag arg).
    + rewrite (IH fuel' (tail rest));
        [tauto | destruct rest; simpl in *; lia
        | destruct rest; simpl in *; lia].
    + rewrite (IH fuel' rest); [tauto | lia | lia].
Qed.

(** Without a [-t] or [--time] option the loop leaves [time] alone. *)
Lemma parseArgs_loop_time fuel : forall (args : list string) c c',
  parseArgs_loop fuel args c = Config c' ->
  ~ at_option fuel "-t" args -> ~ at_option fuel "--time" args ->
  time c' = time c.
Proof.
  induction fuel as [|fuel IH]; intros args c c' Hrun Ht Htime.
  - simpl in Hrun. by simplify_eq.
  - destruct args as [|arg rest]; [simpl in Hrun; by simplify_eq|].
    cbn [parseArgs_loop at_option] in *.
    destruct (value_flag arg) as [f|] eqn:Hvf.
    + rewrite (IH _ _ _ Hrun) by tauto.
      destruct f; try done.
      apply value_flag_time in Hvf. tauto.
    + case_decide as Had.
      * rewrite (IH _ _ _ Hrun) by tauto. done.
      * case_decide as Hhelp; [done|].
        rewrite (IH _ _ _ Hrun) by tauto. done.
Qed.

(** X15. The duration is not validated.  When [-t v] comes first and no
    later option sets the time again, the configuration [parseArgs]
    returns has [time = parseInt(v, 10)]: a numeral followed by other
    text (a unit, a decimal point, an exponent) counts as the numeral
    alone, and a value that starts with no digit, sign or white space
    gives [NaN], with which [parseArgs] returns all the same. *)
Theorem parseArgs_numbers_unchecked v rest c :
  parseArgs ("-t" :: v :: rest) = Config c ->
  ~ at_option (length rest) "-t" rest ->
  ~ at_option (length rest) "--time" rest ->
  time c = parseInt v /\
  (forall s t,
     v = String.append s t -> s <> "" ->
     (forall ch, In ch (list_ascii_of_string s) -> is_digit ch = true) ->
     (match t with
      | String ch _ => is_digit ch = false
      | EmptyString => True
      end) ->
     exists n, time c = Some n /\ parseInt s = Some n /\ 0 <= n) /\
  (match v with
   | String ch _ =>
       is_digit ch = false -> ch <> "-"%char -> ch <> "+"%char ->
       Str.is_whitespace ch = false -> time c = None
   | EmptyString => time c = None
   end).
Proof.
  intros Hrun Ht Htime.
  assert (Hv : time c = parseInt v).
  { unfold parseArgs in Hrun.
    change (parseArgs_loop (length ("-t" :: v :: rest)) ("-t" :: v :: rest)
              defaults)
      with (parseArgs_loop (S (length rest)) rest
              (set_option FTime (Some v) defaults)) in Hrun.
    destruct (parseArgs_loop (S (length rest)) rest
                (set_option FTime (Some v) defaults)) as [c0|] eqn:Hloop;
      [|done].
    destruct (truthy (url c0)); [|done]. simplify_eq.
    rewrite (parseArgs_loop_time _ _ _ _ Hloop); [done | |].
    - by rewrite (at_option_fuel "-t" _ (length rest)) by lia.
    - by rewrite (at_option_fuel "--time" _ (length rest)) by lia. }
  split_and!; [exact Hv | |].
  - intros s t -> Hne Hs Hnd.
    destruct (parseInt_leading_numeral s t Hne Hs Hnd)
      as (Happ & _ & (n & Hn & Hpos) & _).
    exists n. rewrite Hv, Happ. done.
  - rewrite Hv. destruct v as [|ch v']; [done|].
    intros Hd Hm Hp Hw.
    pose proof (parseInt_leading_numeral "0" (String ch v')) as Hlead.
    destruct Hlead as (_ & _ & _ & Hnan);
      [done | intros c0 [<-|[]]; done | exact Hd |].
    destruct ch as [[] [] [] [] [] [] [] []]; try done; by apply Hnan.
Qed.

End ParseIntFacts.

(** ** The report *)

Section ReportFacts.

Import Engine Report.

Local Open Scope list_scope.

Lemma insert_after_perm {A : Type} (before : A -> A -> bool) x l :
  insert_after before x l ≡ₚ x :: l.
Proof.
  induction l as [|y l IH]; [done|]. simpl.
  destruct (before x y); [done|]. rewrite IH. apply Permutation_swap.
Qed.

Lemma fold_insert_after_perm {A : Type} (before : A -> A -> bool) l :
  forall acc,
    fold_left (fun acc x => insert_after before x acc) l acc ≡ₚ acc ++ l.
Proof.
  induction l as [|x l IH]; intros acc; [by rewrite app_nil_r|].
  simpl. rewrite IH, insert_after_perm. simpl.
  apply Permutation_middle.
Qed.

Lemma stable_sort_perm {A : Type} (before : A -> A -> bool) l :
  stable_sort before l ≡ₚ l.
Proof. unfold stable_sort. by rewrite fold_insert_after_perm. Qed.

Lemma insert_after_sorted {A : Type} (R : relation A) `{!Transitive R}
    (before : A -> A -> bool) x l :
  StronglySorted R l ->
  (forall y, y ∈ l -> if before x y then R x y else R y x) ->
  StronglySorted R (insert_after before x l).
Proof.
  induction l as [|y l IH]; intros Hs Hx.
  - simpl. by repeat constructor.
  - apply StronglySorted_cons in Hs as [Hy Hs]. simpl.
    pose proof (Hx y ltac:(left)) as Hxy.
    destruct (before x y).
    + apply StronglySorted_cons. split.
      * constructor; [done|].
        eapply Forall_impl; [exact Hy|]. intros z Hz. by etrans.
      * by apply StronglySorted_cons.
    + apply StronglySorted_cons. split.
      * rewrite insert_after_perm. by constructor.
      * apply IH; [done|]. intros z Hz. apply Hx. by right.
Qed.

Lemma key_lt_trans : Transitive key_lt.
Proof. unfold key_lt. intros x y z. lia. Qed.

Lemma ranks_before_trans : Transitive ranks_before.
Proof. unfold ranks_before. intros x y z. lia. Qed.

Lemma fold_sorted_keys l : forall acc,
  StronglySorted key_lt acc ->
  NoDup ((acc ++ l).*1) ->
  StronglySorted key_lt
    (fold_left (fun acc x => insert_after (fun x y => x.1 <? y.1) x acc)
       l acc).
Proof.
  induction l as [|x l IH]; intros acc Hs Hnd; [done|].
  simpl. apply IH.
  - apply (insert_after_sorted key_lt (Transitive0 := key_lt_trans));
      [done|].
    intros y Hy. unfold key_lt.
    destruct (Z.ltb_spec x.1 y.1); [done|].
    assert (y.1 <> x.1); [|lia].
    rewrite fmap_app, fmap_cons in Hnd.
    apply NoDup_app in Hnd as (_ & Hdis & _).
    intros Heq. apply (Hdis y.1).
    + apply list_elem_of_fmap. by exists y.
    + rewrite Heq. left.
  - rewrite insert_after_perm. simpl.
    rewrite fmap_app, fmap_cons in Hnd.
    rewrite fmap_app. by rewrite Permutation_middle.
Qed.

Lemma entries_sorted h : StronglySorted key_lt (entries h).
Proof.
  unfold entries, stable_sort. apply fold_sorted_keys; [constructor|].
  simpl. apply NoDup_fst_map_to_list.
Qed.

Lemma entries_perm h : entries h ≡ₚ map_to_list h.
Proof. apply stable_sort_perm. Qed.

Lemma fold_sorted_rank l : forall acc,
  StronglySorted ranks_before acc ->
  StronglySorted key_lt l ->
  (forall a x, a ∈ acc -> x ∈ l -> a.1 < x.1) ->
  StronglySorted ranks_before
    (fold_left (fun acc x => insert_after by_count_desc x acc) l acc).
Proof.
  induction l as [|x l IH]; intros acc Hs Hl Hlt; [done|].
  apply StronglySorted_cons in Hl as [Hx Hl].
  simpl. apply IH; [|done|].
  - apply (insert_after_sorted ranks_before
             (Transitive0 := ranks_before_trans)); [done|].
    intros y Hy. unfold by_count_desc, ranks_before.
    pose proof (Hlt y x Hy ltac:(left)).
    destruct (Z.ltb_spec y.2 x.2); lia.
  - intros a z Ha Hz. rewrite insert_after_perm in Ha.
    apply elem_of_cons in Ha as [->|Ha].
    + rewrite Forall_forall in Hx. by apply Hx.
    + apply Hlt; [done | by right].
Qed.

Lemma ranked_sorted h :
  StronglySorted ranks_before (stable_sort by_count_desc (entries h)).
Proof.
  unfold stable_sort. apply fold_sorted_rank.
  - constructor.
  - apply entries_sorted.
  - intros a x Ha. by apply elem_of_nil in Ha.
Qed.

Lemma ranked_perm h :
  stable_sort by_count_desc (entries h) ≡ₚ map_to_list h.
Proof. by rewrite stable_sort_perm, entries_perm. Qed.

(** X16. A top list of the report ([topCodes] with 10 lines, the attack
    response codes with 5) holds the [n] most frequent codes of the
    histogram, or all of them when there are fewer: it lists each code
    once with its count, in the order of falling count and, among equal
    counts, of rising code; and no code left out has a higher count than
    a code listed. *)
Theorem top_lists_most_frequent n (h : gmap Z Z) :
  length (top n h) = Nat.min n (size h) /\
  StronglySorted ranks_before (top n h) /\
  NoDup (top n h).*1 /\
  (forall code count, (code, count) ∈ top n h -> h !! code = Some count) /\
  (forall code count, h !! code = Some count -> (code, count) ∉ top n h ->
     forall x, x ∈ top n h -> count <= x.2) /\
  ((size h <= n)%nat ->
   forall code count, h !! code = Some count -> (code, count) ∈ top n h).
Proof.
  unfold top.
  set (l := stable_sort by_count_desc (entries h)).
  assert (Hperm : l ≡ₚ map_to_list h) by apply ranked_perm.
  assert (Hsort : StronglySorted ranks_before l) by apply ranked_sorted.
  assert (Hin : forall code count,
            (code, count) ∈ l <-> h !! code = Some count).
  { intros code count. rewrite Hperm. apply elem_of_map_to_list. }
  assert (Hlen : length l = size h).
  { rewrite Hperm. apply length_map_to_list. }
  assert (Hsplit : l = take n l ++ drop n l) by (by rewrite take_drop).
  split_and!.
  - by rewrite length_take, Hlen.
  - rewrite Hsplit in Hsort. by eapply StronglySorted_app_1_l.
  - assert (Hnd : NoDup l.*1).
    { rewrite Hperm. apply NoDup_fst_map_to_list. }
    rewrite Hsplit, fmap_app in Hnd. by apply NoDup_app in Hnd as (? & _).
  - intros code count Ht. apply Hin. rewrite Hsplit.
    apply elem_of_app. by left.
  - intros code count Hh Hnot x Hx.
    apply Hin in Hh. rewrite Hsplit in Hh.
    apply elem_of_app in Hh as [?|Hd]; [done|].
    rewrite Hsplit in Hsort.
    pose proof (StronglySorted_app_1_elem_of _ _ _ _ _ Hsort Hx Hd) as Hr.
    unfold ranks_before in Hr. simpl in Hr. lia.
  - intros Hsize code count Hh. rewrite take_ge by lia. by apply Hin.
Qed.

Lemma pad2_length (n : nat) :
  (n < 100)%nat ->
  String.length (padStart 2 "0" (pretty (Z.of_nat n))) = 2%nat.
Proof.
  intros Hn.
  do 100 (destruct n as [|n]; [vm_compute; reflexivity|]). lia.
Qed.

Lemma length_append s t :
  String.length (String.append s t) = (String.length s + String.length t)%nat.
Proof. induction s as [|c s IH]; [done|]. simpl. by rewrite IH. Qed.

(** X17. For a time that is not negative, [formatTime] splits the whole
    seconds into hours, minutes below 60 and seconds below 60, which add
    up to the whole seconds again; below 100 hours the text has the
    eight characters of HH:MM:SS. *)
Theorem formatTime_splits_seconds ms :
  0 <= ms ->
  0 <= hours ms /\
  0 <= minutes ms < 60 /\
  0 <= seconds ms < 60 /\
  3600 * hours ms + 60 * minutes ms + seconds ms = ms / 1000 /\
  (ms < 360000000 -> String.length (formatTime ms) = 8%nat).
Proof.
  intros Hms. unfold hours, minutes, seconds.
  rewrite !Z.rem_mod_nonneg by lia.
  assert (H1 : 0 <= ms / 3600000) by (apply Z.div_pos; lia).
  assert (H2 : 0 <= ms mod 3600000 < 3600000) by (apply Z.mod_pos_bound; lia).
  assert (H3 : 0 <= ms mod 60000 < 60000) by (apply Z.mod_pos_bound; lia).
  assert (H4 : 0 <= ms mod 3600000 / 60000 < 60).
  { split; [apply Z.div_pos; lia|]. apply Z.div_lt_upper_bound; lia. }
  assert (H5 : 0 <= ms mod 60000 / 1000 < 60).
  { split; [apply Z.div_pos; lia|]. apply Z.div_lt_upper_bound; lia. }
  split_and!; try lia.
  - pose proof (Z.div_mod ms 3600000 ltac:(lia)).
    pose proof (Z.div_mod ms 60000 ltac:(lia)).
    pose proof (Z.div_mod ms 1000 ltac:(lia)).
    pose proof (Z.div_mod (ms mod 3600000) 60000 ltac:(lia)).
    pose proof (Z.div_mod (ms mod 60000) 1000 ltac:(lia)).
    pose proof (Z.mod_pos_bound ms 1000 ltac:(lia)).
    pose proof (Z.mod_pos_bound (ms mod 3600000) 60000 ltac:(lia)).
    pose proof (Z.mod_pos_bound (ms mod 60000) 1000 ltac:(lia)).
    lia.
  - intros Hlt. unfold formatTime, hours, minutes, seconds.
    rewrite !Z.rem_mod_nonneg by lia.
    assert (H6 : ms / 3600000 < 100) by (apply Z.div_lt_upper_bound; lia).
    rewrite !length_append. simpl String.length.
    rewrite <- (Z2Nat.id (ms / 3600000)) by lia.
    rewrite <- (Z2Nat.id (ms mod 3600000 / 60000)) by lia.
    rewrite <- (Z2Nat.id (ms mod 60000 / 1000)) by lia.
    rewrite !pad2_length by lia. done.
Qed.

End ReportFacts.

(** ** The protocol override, token by token *)

Section OverrideFacts.

Import Engine.

Local Open Scope list_scope.

Lemma split_not_nil sep s : Str.split sep s <> [].
Proof.
  induction s as [|ch s IH]; simpl; [done|].
  destruct (Ascii.eqb ch sep); [done|]. by destruct (Str.split sep s).
Qed.

Lemma split_append sep s1 s2 :
  Str.split sep (String.append s1 (String sep s2)) =
  Str.split sep s1 ++ Str.split sep s2.
Proof.
  induction s1 as [|ch s1 IH]; simpl.
  - by rewrite Ascii.eqb_refl.
  - destruct (Ascii.eqb ch sep); [by rewrite IH|].
    rewrite IH. pose proof (split_not_nil sep s1).
    by destruct (Str.split sep s1).
Qed.

Lemma get_protocolMap_range token :
  let v := Js.get protocolMap token in
  v = VUndefined \/ v ∈ [VStr "h1.1"; VStr "h2"; VStr "h3"] \/
  (token ∈ Object_prototype /\ v = VBuiltin token).
Proof.
  unfold Js.get, protocolMap. simpl.
  repeat case_decide; simpl;
    first [ by left | right; left; by repeat constructor
          | right; right; done ].
Qed.

(** X18. The override is parsed token by token: the protocols of
    "A,B" are those of A followed by those of B, so the order of the
    tokens and their repetitions are kept ("2,2" gives h2 twice); there
    are never more protocols than tokens; and whatever the text, each
    protocol is h1.1, h2, h3 or a member inherited from Object.prototype
    under the name of its token. *)
Theorem parse_override_by_token s1 s2 :
  parse_override (String.append s1 (String "," s2)) =
    parse_override s1 ++ parse_override s2 /\
  (length (parse_override s1) <= length (Str.split "," s1))%nat /\
  Forall (fun v =>
            v ∈ [VStr "h1.1"; VStr "h2"; VStr "h3"] \/
            exists name, name ∈ Object_prototype /\ v = VBuiltin name)
    (parse_override s1).
Proof.
  unfold parse_override. split_and!.
  - by rewrite split_append, map_app, filter_app.
  - rewrite <- (length_map (fun p => Js.get protocolMap (Str.trim p))
                  (Str.split "," s1)).
    apply length_filter.
  - induction (Str.split "," s1) as [|p ps IH]; [constructor|].
    cbn [map].
    destruct (get_protocolMap_range (Str.trim p)) as [Hv|[Hv|[Hn Hv]]].
    + rewrite Hv. by rewrite filter_cons_False.
    + destruct (decide (truthy (Js.get protocolMap (Str.trim p)) = true)).
      * rewrite filter_cons_True by done. constructor; [by left | done].
      * by rewrite filter_cons_False.
    + rewrite Hv. rewrite filter_cons_True by done.
      constructor; [|done]. right. by exists (Str.trim p).
Qed.

End OverrideFacts.

(** ** The further properties at work on the scenarios *)

Section FurtherWitnesses.

Import CircuitBreaker Engine Tally Report Scenario Cases.

Local Open Scope list_scope.

(** After one failure a breaker of threshold 3 is within its bounds. *)
Lemma breaker_counters_bounded_witness :
  let b := on_failure 7 (new 3 5000 2) in
  failCount b < threshold b /\ 0 <= successCount b.
Proof.
  intros b.
  destruct (breaker_counters_bounded b) as (Hclosed & _ & _ & Hs).
  - apply reach_failure, reach_new.
  - simpl. lia.
  - simpl. lia.
  - split; [apply Hclosed; reflexivity | exact Hs].
Defined.

(** Two refused calls around a served one leave a breaker of threshold 3
    CLOSED. *)
Lemma breaker_needs_threshold_failures_witness :
  let cs := [failing_call; passing_call; failing_call] in
  state (run_calls (fun now : Z => now) cs (new 3 1000 3) 0).1.2 = CLOSED.
Proof.
  intros cs.
  destruct (breaker_needs_threshold_failures (fun now : Z => now) 3 1000 3
              cs 0) as (Hstate & _).
  - vm_compute. reflexivity.
  - exact Hstate.
Defined.

(** A dispatch over [h2; h1.1] against a serving target records one
    success. *)
Lemma sendRequest_success_recorded_witness :
  let run :=
    sendRequest any_url serving target_url "/" [VStr "h2"; VStr "h1.1"]
      (new 15 8000 5) (initial_env 0) in
  success (stats run.2) = 1 /\ failed (stats run.2) = 0.
Proof.
  intros run.
  destruct (sendRequest_success_recorded any_url serving target_url "/"
              [VStr "h2"; VStr "h1.1"] (new 15 8000 5) (initial_env 0)
              (mkResult 200 4000000 (VStr "h2")) run.1.2 run.2)
    as (_ & Hsuccess & _ & _ & _ & Hfailed & _).
  - vm_compute. reflexivity.
  - split; [exact Hsuccess | exact Hfailed].
Defined.

(** A 503 is returned as a response and counted as a success. *)
Lemma answered_request_is_success_witness :
  exists latency e',
    sendRequest any_url overloaded target_url "/" [VStr "h2"; VStr "h1.1"]
      (new 15 8000 5) (initial_env 0) =
      (Ok (Some (mkResult 503 latency (VStr "h2"))),
       on_success (new 15 8000 5), e') /\
    success (stats e') = 1.
Proof.
  destruct (answered_request_is_success any_url overloaded target_url "/"
              (VStr "h2") [VStr "h1.1"] (new 15 8000 5) (new 15 8000 5)
              (initial_env 0) 503 HAbsent 1000000)
    as (latency & e' & Hrun & Hsuccess & _).
  - reflexivity.
  - reflexivity.
  - reflexivity.
  - exists latency, e'. split; [exact Hrun | exact Hsuccess].
Defined.

(** The list detected on a serving target is never fallen through. *)
Lemma main_protocols_not_empty_witness :
  match
    (sendRequest any_url serving target_url "/"
       [VStr "h3"; VStr "h2"; VStr "h1.1"] (new 15 8000 5)
       (initial_env 0)).1.1
  with
  | Ok None => False
  | _ => True
  end.
Proof.
  destruct (main_protocols_not_empty any_url serving config target_url
              (initial_env 0) [VStr "h3"; VStr "h2"; VStr "h1.1"]
              (main_protocols any_url serving config target_url
                 (initial_env 0)).2) as (_ & Hsettles).
  - vm_compute. reflexivity.
  - specialize (Hsettles "/" (new 15 8000 5) (initial_env 0)).
    destruct (sendRequest any_url serving target_url "/"
                [VStr "h3"; VStr "h2"; VStr "h1.1"] (new 15 8000 5)
                (initial_env 0)).1.1 as [[res|]|err];
      [exact I | exact (Hsettles eq_refl) | exact I].
Defined.

(** One worker on [h2; h1.1], with and without the flag. *)
Lemma adaptive_delay_has_no_effect_witness :
  let w := (new 15 8000 5, initial_env 0) in
  runWorker any_url serving None 3 (with_adaptiveDelay true config)
    target_url "/" [VStr "h2"; VStr "h1.1"] 0 60000 w =
  runWorker any_url serving None 3 (with_adaptiveDelay false config)
    target_url "/" [VStr "h2"; VStr "h1.1"] 0 60000 w.
Proof.
  intros w.
  apply (adaptive_delay_has_no_effect any_url serving None 3 config
           target_url "/" [VStr "h2"; VStr "h1.1"] 0 60000 w).
  discriminate.
Defined.

(** Three turns against a breaker that is OPEN until 8000 ms: three
    failures, six seconds, nothing sent. *)
Lemma worker_backs_off_while_open_witness :
  let w :=
    Nat.iter 3 (runWorker_round any_url serving config target_url "/"
                  [VStr "h2"; VStr "h1.1"]) (tripped, initial_env 0) in
  failed (stats w.2) = 3 /\ Date_now w.2 = 6000 /\ wire w.2 = [].
Proof.
  intros w.
  destruct (worker_backs_off_while_open any_url serving config target_url
              "/" [VStr "h2"; VStr "h1.1"] tripped (initial_env 0) 3)
    as (_ & Hwire & _ & _ & _ & Hfailed & _ & Hnow).
  - discriminate.
  - reflexivity.
  - vm_compute. reflexivity.
  - split; [exact Hfailed | split; [exact Hnow | exact Hwire]].
Defined.

(** Three turns against a target that refuses every connection open a
    breaker of threshold 3. *)
Lemma worker_opens_breaker_on_dead_target_witness :
  state (Nat.iter 3 (runWorker_round any_url unreachable config target_url
                       "/" [VStr "h1.1"])
           (new 3 8000 5, initial_env 0)).1 = OPEN.
Proof.
  destruct (worker_opens_breaker_on_dead_target any_url unreachable config
              target_url "/" (VStr "h1.1") 3 8000 5 (initial_env 0))
    as (_ & _ & Hopen & _).
  - lia.
  - reflexivity.
  - intros sent. exists refused. reflexivity.
  - exact Hopen.
Defined.

(** Two rounds of the attack driver against an HTTP/2 target leave no
    session open. *)
Lemma rapidResetAttack_releases_every_session_witness :
  live (rapidResetAttack h2_target 2 target_url 60000 (initial_env 0)) =
  live (initial_env 0).
Proof.
  destruct (rapidResetAttack_releases_every_session h2_target 2 target_url
              60000 (initial_env 0)) as (Hlive & _).
  - intros k Hk. simpl in Hk. rewrite lookup_empty in Hk.
    destruct Hk as [x Hx]. discriminate Hx.
  - exact Hlive.
Defined.

(** After one dispatch from the initial statistics the histograms sum to
    the counters. *)
Lemma histograms_sum_to_counters_witness :
  let w := (new 15 8000 5, initial_env 0) in
  let run :=
    sendRequest any_url serving target_url "/" [VStr "h2"; VStr "h1.1"]
      w.1 w.2 in
  balanced (stats run.2).
Proof.
  intros w run.
  destruct (histograms_sum_to_counters any_url serving h2_target None w
              (run.1.2, run.2)) as (Hbalanced & _).
  - apply balanced_initial.
  - apply rtc_once. apply op_sendRequest.
  - exact Hbalanced.
Defined.

(** After one round of the attack driver [attackSent] is the number of
    streams sent. *)
Lemma attackSent_counts_streams_witness :
  let e := rapidResetAttack_round h2_target target_url (initial_env 0) in
  attackSent (stats e) = streams_sent (wire e).
Proof.
  intros e.
  apply (attackSent_counts_streams any_url serving h2_target
           (new 15 8000 5, initial_env 0) (new 15 8000 5, e)).
  - reflexivity.
  - apply rtc_once. apply op_rapidResetAttack_round.
Defined.

(** [-t 5m] is read as 5. *)
Lemma parseArgs_numbers_unchecked_witness :
  exists c,
    Cli.parseArgs ("-t" :: "5m" :: argv_rest) = Cli.Config c /\
    Cli.time c = Some 5.
Proof.
  exists (Cli.mkOptions (VStr "https://target.example:443") (Some 5)
            (Some 50) (VStr "none") VUndefined false).
  split; [reflexivity|].
  destruct (parseArgs_numbers_unchecked "5m" argv_rest
              (Cli.mkOptions (VStr "https://target.example:443") (Some 5)
                 (Some 50) (VStr "none") VUndefined false))
    as (Htime & _).
  - reflexivity.
  - simpl. intros [H | H]; [discriminate H | exact H].
  - simpl. intros [H | H]; [discriminate H | exact H].
  - exact Htime.
Defined.

(** One hour, two minutes and three seconds. *)
Lemma formatTime_splits_seconds_witness :
  3600 * hours 3723000 + 60 * minutes 3723000 + seconds 3723000 = 3723 /\
  String.length (formatTime 3723000) = 8%nat.
Proof.
  destruct (formatTime_splits_seconds 3723000) as (_ & _ & _ & Hsum & Hlen).
  - lia.
  - split; [exact Hsum | apply Hlen; lia].
Defined.

End FurtherWitnesses.
